(** * A shallow embedding of the Collector mark-sweep garbage collector

    The development follows [Collector.hpp] and [Collector.cpp]: the
    [Collectable] base class, the event records, the singleton
    [Collector] (event queue, registry [_nodes], thread-specific flag
    [_inGC], sequence counter, dirty flag), and the two smart pointers
    [RootPtr] and [EdgePtr].

    Conventions.
    - A [Collectable*] is an address in [N]; address 0 is the null pointer.
    - The C++ heap is a finite map from addresses to live objects.  Reading
      or writing through an address that holds no live object is undefined
      behaviour and is reported as [Err Undefined].
    - [assert] is compiled in: a failing assertion ends the run with the
      matching [Abort] value.
    - The mutex only serialises [ProcessEvents] and [Collect]; operations
      of the model are already atomic, so the lock is not represented.
      Threads appear only as the index of the thread-specific flag. *)

From stdpp Require Import gmap list sorting.
From Stdlib Require Import ZArith Lia.

Set Default Proof Using "Type".
#[local] Set Warnings "-clear-no-such-hyp".

(** ** Outcomes *)

Inductive Abort : Type :=
| AssertRootCount    (* assert(e.a->gcRootCount >= 0) failed *)
| AssertConnection   (* assert(iter != e.a->gcConnections.end()) failed *)
| Undefined          (* access through a dead or null address, signed overflow *)
| AssertOwner        (* assert(owner), assert(_owner == other._owner) failed *)
| Blocked            (* _PushEvent spins on a full queue that nobody drains *)
| OutOfFuel.         (* artefact of the model of the mark loop, never produced by Collect *)

Inductive result (A : Type) : Type :=
| Ok (x : A)
| Err (e : Abort).
Arguments Ok {A} x.
Arguments Err {A} e.

Definition bind {A B : Type} (r : result A) (k : A → result B) : result B :=
  match r with
  | Ok x => k x
  | Err e => Err e
  end.

Notation "x ←! r ; k" := (bind r (λ x, k))
  (at level 20, r at level 100, k at level 200, right associativity,
   format "x  ←!  r ;  '/' k").

#[global] Instance Abort_eq_dec : EqDecision Abort.
Proof. solve_decision. Defined.

(** ** Data model *)

Abbreviation ptr := N.
Abbreviation thread := nat.

Definition null : ptr := 0%N.

(** [int] is 32 bits wide; [size_t] is 64 bits wide. *)
Definition INT_MAX : Z := 2147483647.
Definition INT_MIN : Z := -2147483648.
Definition SIZE_MOD : N := 18446744073709551616.

(** [x++] on an [int]: overflow is undefined behaviour. *)
Definition int_incr (x : Z) : result Z :=
  if (x <? INT_MAX)%Z then Ok (x + 1)%Z else Err Undefined.

(** [x--] on an [int]. *)
Definition int_decr (x : Z) : result Z :=
  if (INT_MIN <? x)%Z then Ok (x - 1)%Z else Err Undefined.

(** [x++] on a [size_t]: wraps around. *)
Definition size_incr (x : N) : N := ((x + 1) mod SIZE_MOD)%N.

Module Event.

Inductive Type_ : Type := AddRoot | RemoveRoot | Connect | Disconnect.

Record t : Type := mk { type : Type_; a : ptr; b : ptr }.

#[global] Instance Type_eq_dec : EqDecision Type_.
Proof. solve_decision. Defined.

#[global] Instance eq_dec : EqDecision t.
Proof. solve_decision. Defined.

End Event.

(** The state of an [EdgePtr<T>]: the owner it is embedded in ([_owner])
    and its target ([_ptr]). *)
Record EdgePtr : Type := MkEdgePtr { EdgePtr_owner : ptr; EdgePtr_ptr : ptr }.

(** The state of a [RootPtr<T>]: its target ([_ptr]). *)
Record RootPtr : Type := MkRootPtr { RootPtr_ptr : ptr }.

(** A live object.  The first three fields are those of [Collectable].
    [edge_members] are the [EdgePtr]s embedded in the derived class (the
    [_edges] vector of the [Node] class of the README); they matter only
    when the object is deleted, because their destructors then run. *)
Record Collectable : Type := MkCollectable {
  gcConnections : list ptr;
  gcRootCount : Z;
  gcSequence : N;
  edge_members : list EdgePtr
}.

(** [Collectable()] : gcRootCount(0), gcSequence(0), no connections. *)
Definition new_Collectable (ms : list EdgePtr) : Collectable :=
  MkCollectable [] 0 0 ms.

Record World : Type := MkWorld {
  heap : gmap ptr Collectable;   (* the live Collectable objects *)
  deleted : list ptr;            (* every [delete node] so far, oldest first *)
  _eventQueue : list Event.t;    (* front of the queue first *)
  _nodes : gset ptr;             (* std::set<Collectable*> *)
  _inGC : gmap thread bool;      (* boost::thread_specific_ptr<bool> *)
  _sequence : N;
  _graphChanged : bool
}.

(** [Collector::Collector()] with an empty heap. *)
Definition Collector_init : World :=
  MkWorld ∅ [] [] ∅ ∅ 0 false.

(** [_eventQueue(32000)] *)
Definition QUEUE_CAPACITY : N := 32000.

Definition set_heap (h : gmap ptr Collectable) (w : World) : World :=
  MkWorld h (deleted w) (_eventQueue w) (_nodes w) (_inGC w) (_sequence w)
          (_graphChanged w).

Definition set_deleted (d : list ptr) (w : World) : World :=
  MkWorld (heap w) d (_eventQueue w) (_nodes w) (_inGC w) (_sequence w)
          (_graphChanged w).

Definition set_eventQueue (q : list Event.t) (w : World) : World :=
  MkWorld (heap w) (deleted w) q (_nodes w) (_inGC w) (_sequence w)
          (_graphChanged w).

Definition set_nodes (X : gset ptr) (w : World) : World :=
  MkWorld (heap w) (deleted w) (_eventQueue w) X (_inGC w) (_sequence w)
          (_graphChanged w).

Definition set_inGC (m : gmap thread bool) (w : World) : World :=
  MkWorld (heap w) (deleted w) (_eventQueue w) (_nodes w) m (_sequence w)
          (_graphChanged w).

Definition set_sequence (s : N) (w : World) : World :=
  MkWorld (heap w) (deleted w) (_eventQueue w) (_nodes w) (_inGC w) s
          (_graphChanged w).

Definition set_graphChanged (c : bool) (w : World) : World :=
  MkWorld (heap w) (deleted w) (_eventQueue w) (_nodes w) (_inGC w)
          (_sequence w) c.

(** Iteration over a [std::set<Collectable*>] visits the addresses in
    increasing order. *)
Definition set_order (X : gset ptr) : list ptr :=
  merge_sort N.le (elements X).

(** ** Event intake *)

(** [Collector::_PushEvent]: the bounded queue refuses a push when it
    holds [QUEUE_CAPACITY] records, and the source retries forever. *)
Definition _PushEvent (e : Event.t) (w : World) : result World :=
  if decide (N.of_nat (length (_eventQueue w)) < QUEUE_CAPACITY)%N
  then Ok (set_eventQueue (_eventQueue w ++ [e]) w)
  else Err Blocked.

(** The [b] field of a root event is left unset by the source and is
    never read by the replay; the model stores the null address. *)
Definition AddRoot (node : ptr) (w : World) : result World :=
  _PushEvent (Event.mk Event.AddRoot node null) w.

Definition RemoveRoot (node : ptr) (w : World) : result World :=
  _PushEvent (Event.mk Event.RemoveRoot node null) w.

Definition AddEdge (a b : ptr) (w : World) : result World :=
  _PushEvent (Event.mk Event.Connect a b) w.

Definition RemoveEdge (a b : ptr) (w : World) : result World :=
  _PushEvent (Event.mk Event.Disconnect a b) w.

(** Pushing a list of events one after the other. *)
Fixpoint push_events (es : list Event.t) (w : World) : result World :=
  match es with
  | [] => Ok w
  | e :: es => w' ←! _PushEvent e w; push_events es w'
  end.

(** ** Event replay *)

(** [std::find] followed by [erase]: drops the first occurrence of [b];
    [None] when [find] returns [end()]. *)
Fixpoint erase_first (b : ptr) (adj : list ptr) : option (list ptr) :=
  match adj with
  | [] => None
  | x :: adj' =>
      if decide (x = b) then Some adj'
      else cons x <$> erase_first b adj'
  end.

(** The body of the [switch] in [Collector::_ProcessEvents], applied to the
    registry and the heap. *)
Definition apply_event (e : Event.t) (w : World) : result World :=
  match Event.type e with
  | Event.AddRoot =>
      let w := set_nodes ({[Event.a e]} ∪ _nodes w) w in
      match heap w !! Event.a e with
      | None => Err Undefined
      | Some o =>
          c ←! int_incr (gcRootCount o);
          Ok (set_heap (<[Event.a e :=
                 MkCollectable (gcConnections o) c (gcSequence o)
                               (edge_members o)]> (heap w)) w)
      end
  | Event.RemoveRoot =>
      match heap w !! Event.a e with
      | None => Err Undefined
      | Some o =>
          c ←! int_decr (gcRootCount o);
          if (0 <=? c)%Z
          then Ok (set_heap (<[Event.a e :=
                     MkCollectable (gcConnections o) c (gcSequence o)
                                   (edge_members o)]> (heap w)) w)
          else Err AssertRootCount
      end
  | Event.Connect =>
      match heap w !! Event.a e with
      | None => Err Undefined
      | Some o =>
          Ok (set_heap (<[Event.a e :=
                 MkCollectable (gcConnections o ++ [Event.b e]) (gcRootCount o)
                               (gcSequence o) (edge_members o)]> (heap w)) w)
      end
  | Event.Disconnect =>
      match heap w !! Event.a e with
      | None => Err Undefined
      | Some o =>
          match erase_first (Event.b e) (gcConnections o) with
          | None => Err AssertConnection
          | Some adj =>
              Ok (set_heap (<[Event.a e :=
                     MkCollectable adj (gcRootCount o) (gcSequence o)
                                   (edge_members o)]> (heap w)) w)
          end
      end
  end.

(** The [while (_eventQueue.pop(e))] loop, by recursion on the queue
    content [q]: each round pops the front event, sets [_graphChanged] and
    runs the [switch]. *)
Fixpoint replay (q : list Event.t) (w : World) : result World :=
  match q with
  | [] => Ok w
  | e :: q' =>
      w' ←! apply_event e (set_graphChanged true (set_eventQueue q' w));
      replay q' w'
  end.

Definition _ProcessEvents (w : World) : result World :=
  replay (_eventQueue w) w.

Definition ProcessEvents (w : World) : result World :=
  _ProcessEvents w.

(** ** The thread-specific flag *)

(** [Collector::InGC]: allocates the calling thread's flag as [false] when
    it has none, then reads it. *)
Definition InGC (t : thread) (w : World) : bool * World :=
  match _inGC w !! t with
  | None => (false, set_inGC (<[t := false]> (_inGC w)) w)
  | Some f => (f, w)
  end.

(** ** RootPtr *)

Definition RootPtr_Retain (this : RootPtr) (w : World) : result World :=
  if decide (RootPtr_ptr this = null) then Ok w
  else AddRoot (RootPtr_ptr this) w.

Definition RootPtr_Release (this : RootPtr) (w : World) : result World :=
  if decide (RootPtr_ptr this = null) then Ok w
  else RemoveRoot (RootPtr_ptr this) w.

(** [RootPtr()] *)
Definition RootPtr_null : RootPtr := MkRootPtr null.

(** [explicit RootPtr(T* ptr)] *)
Definition RootPtr_new (p : ptr) (w : World) : result (RootPtr * World) :=
  let this := MkRootPtr p in
  w ←! RootPtr_Retain this w; Ok (this, w).

(** [RootPtr(const RootPtr& other)] *)
Definition RootPtr_copy (other : RootPtr) (w : World)
  : result (RootPtr * World) :=
  let this := MkRootPtr (RootPtr_ptr other) in
  w ←! RootPtr_Retain this w; Ok (this, w).

(** [~RootPtr()] *)
Definition RootPtr_destroy (this : RootPtr) (w : World) : result World :=
  RootPtr_Release this w.

(** [RootPtr& operator=(const RootPtr& other)] *)
Definition RootPtr_assign (this other : RootPtr) (w : World)
  : result (RootPtr * World) :=
  if decide (RootPtr_ptr this = RootPtr_ptr other) then Ok (this, w)
  else
    w ←! RootPtr_Release this w;
    let this := MkRootPtr (RootPtr_ptr other) in
    w ←! RootPtr_Retain this w;
    Ok (this, w).

(** ** EdgePtr *)

Definition EdgePtr_Retain (this : EdgePtr) (w : World) : result World :=
  if decide (EdgePtr_ptr this = null) then Ok w
  else AddEdge (EdgePtr_owner this) (EdgePtr_ptr this) w.

Definition EdgePtr_Release (this : EdgePtr) (w : World) : result World :=
  if decide (EdgePtr_ptr this = null) then Ok w
  else RemoveEdge (EdgePtr_owner this) (EdgePtr_ptr this) w.

(** [EdgePtr(Collectable* owner)] *)
Definition EdgePtr_new (owner : ptr) (w : World) : result (EdgePtr * World) :=
  if decide (owner = null) then Err AssertOwner
  else Ok (MkEdgePtr owner null, w).

(** [EdgePtr(Collectable* owner, const RootPtr<T>& other)] *)
Definition EdgePtr_from_Root (owner : ptr) (other : RootPtr) (w : World)
  : result (EdgePtr * World) :=
  let this := MkEdgePtr owner (RootPtr_ptr other) in
  if decide (owner = null) then Err AssertOwner
  else w ←! EdgePtr_Retain this w; Ok (this, w).

(** The copy constructor of [EdgePtr] is the one the compiler generates
    (the class declares none): it copies [_owner] and [_ptr] and calls
    nothing. *)
Definition EdgePtr_copy (other : EdgePtr) (w : World)
  : result (EdgePtr * World) :=
  Ok (MkEdgePtr (EdgePtr_owner other) (EdgePtr_ptr other), w).

(** [~EdgePtr()], run by thread [t]. *)
Definition EdgePtr_destroy (t : thread) (this : EdgePtr) (w : World)
  : result World :=
  let '(f, w) := InGC t w in
  if f then Ok w else EdgePtr_Release this w.

(** [EdgePtr& operator=(const EdgePtr& other)]; the handle returned is the
    new value of [*this]. *)
Definition EdgePtr_assign (this other : EdgePtr) (w : World)
  : result (EdgePtr * World) :=
  if decide (EdgePtr_owner this = EdgePtr_owner other) then
    if decide (EdgePtr_ptr this = EdgePtr_ptr other) then Ok (this, w)
    else
      w ←! EdgePtr_Release this w;
      let this := MkEdgePtr (EdgePtr_owner this) (EdgePtr_ptr other) in
      w ←! EdgePtr_Retain this w;
      Ok (this, w)
  else Err AssertOwner.

(** [EdgePtr& operator=(const RootPtr<T2>& other)]; the handle returned
    is the new value of [*this]. *)
Definition EdgePtr_assign_Root (this : EdgePtr) (other : RootPtr) (w : World)
  : result (EdgePtr * World) :=
  if decide (EdgePtr_ptr this = RootPtr_ptr other) then Ok (this, w)
  else
    w ←! EdgePtr_Release this w;
    let this := MkEdgePtr (EdgePtr_owner this) (RootPtr_ptr other) in
    w ←! EdgePtr_Retain this w;
    Ok (this, w).

(** [RootPtr<T> GetRootPtr() const] *)
Definition EdgePtr_GetRootPtr (this : EdgePtr) (w : World)
  : result (RootPtr * World) :=
  RootPtr_new (EdgePtr_ptr this) w.

(** ** Trace and sweep *)

Definition stamp (sq : N) (o : Collectable) : Collectable :=
  MkCollectable (gcConnections o) (gcRootCount o) sq (edge_members o).

(** The seeding loop.  [nodeStack] is kept with its back at the head of
    the list, so [push_back] is [cons]. *)
Fixpoint seed_loop (ns : list ptr) (h : gmap ptr Collectable)
    (nodeStack : list ptr) : result (list ptr) :=
  match ns with
  | [] => Ok nodeStack
  | node :: ns' =>
      match h !! node with
      | None => Err Undefined
      | Some o =>
          seed_loop ns' h
            (if decide (gcRootCount o = 0%Z) then nodeStack
             else node :: nodeStack)
      end
  end.

(** The mark loop [while (!nodeStack.empty())].  One unit of fuel is spent
    per round. *)
Fixpoint mark_loop (fuel : nat) (sq : N) (h : gmap ptr Collectable)
    (nodeStack : list ptr) : result (gmap ptr Collectable) :=
  match nodeStack with
  | [] => Ok h
  | node :: rest =>
      match fuel with
      | O => Err OutOfFuel
      | S fuel' =>
          match h !! node with
          | None => Err Undefined
          | Some o =>
              if decide (gcSequence o = sq) then mark_loop fuel' sq h rest
              else mark_loop fuel' sq (<[node := stamp sq o]> h)
                             (reverse (gcConnections o) ++ rest)
          end
      end
  end.

(** A number of rounds the mark loop never exceeds: every stack entry is
    popped once, and the edges of an object are pushed at most once. *)
Definition weight (f : Collectable → nat) (h : gmap ptr Collectable) : nat :=
  map_fold (λ _ o n, f o + n) 0 h.

Definition heap_weight (h : gmap ptr Collectable) : nat :=
  weight (λ o, S (length (gcConnections o))) h.

Definition mark_fuel (h : gmap ptr Collectable) (nodeStack : list ptr) : nat :=
  length nodeStack + heap_weight h.

(** Destruction of the embedded edge handles of a dying object. *)
Fixpoint destroy_members (t : thread) (ms : list EdgePtr) (w : World)
  : result World :=
  match ms with
  | [] => Ok w
  | m :: ms' => w' ←! EdgePtr_destroy t m w; destroy_members t ms' w'
  end.

(** [delete node]: the destructor of the most derived class runs (and with
    it the destructors of the embedded [EdgePtr]s), then the object is
    gone. *)
Definition delete_node (t : thread) (node : ptr) (o : Collectable) (w : World)
  : result World :=
  w ←! destroy_members t (edge_members o) w;
  Ok (set_deleted (deleted w ++ [node]) (set_heap (delete node (heap w)) w)).

(** The sweep loop over [_nodes]. *)
Fixpoint sweep_loop (t : thread) (ns : list ptr) (newNodes : gset ptr)
    (w : World) : result (gset ptr * World) :=
  match ns with
  | [] => Ok (newNodes, w)
  | node :: ns' =>
      match heap w !! node with
      | None => Err Undefined
      | Some o =>
          if decide (gcSequence o = _sequence w)
          then sweep_loop t ns' ({[node]} ∪ newNodes) w
          else w' ←! delete_node t node o w; sweep_loop t ns' newNodes w'
      end
  end.

(** The stages of [Collector::Collect], run by thread [t]. *)

(** [if (!_inGC.get()) _inGC.reset(new bool); *_inGC = true;] *)
Definition Collect_enter (t : thread) (w : World) : World :=
  set_inGC (<[t := true]> (_inGC w)) w.

(** [_sequence++], seeding and marking. *)
Definition Collect_mark (w : World) : result World :=
  let w := set_sequence (size_incr (_sequence w)) w in
  nodeStack ←! seed_loop (set_order (_nodes w)) (heap w) [];
  h ←! mark_loop (mark_fuel (heap w) nodeStack) (_sequence w) (heap w) nodeStack;
  Ok (set_heap h w).

(** The sweep, [_nodes.swap(newNodes)] and [_graphChanged = false]. *)
Definition Collect_sweep (t : thread) (w : World) : result World :=
  r ←! sweep_loop t (set_order (_nodes w)) ∅ w;
  Ok (set_graphChanged false (set_nodes r.1 r.2)).

(** [*_inGC = false] *)
Definition Collect_leave (t : thread) (w : World) : World :=
  set_inGC (<[t := false]> (_inGC w)) w.

Definition Collect (t : thread) (w : World) : result World :=
  let w := Collect_enter t w in
  w ←! _ProcessEvents w;
  w ←! (if _graphChanged w
        then w ←! Collect_mark w; Collect_sweep t w
        else Ok w);
  Ok (Collect_leave t w).

(** ** Drivers *)

(** A mutator pushes the events of one batch, then the worker calls
    [ProcessEvents]; repeated for every batch. *)
Fixpoint run_batches (bs : list (list Event.t)) (w : World) : result World :=
  match bs with
  | [] => Ok w
  | es :: bs' =>
      w1 ←! push_events es w;
      w2 ←! ProcessEvents w1;
      run_batches bs' w2
  end.

(** The calls a program makes on the collector. *)
Inductive Op : Type :=
| OpPush (es : list Event.t)
| OpProcessEvents
| OpCollect (t : thread).

Definition step_op (op : Op) (w : World) : result World :=
  match op with
  | OpPush es => push_events es w
  | OpProcessEvents => ProcessEvents w
  | OpCollect t => Collect t w
  end.

Fixpoint run_ops (ops : list Op) (w : World) : result World :=
  match ops with
  | [] => Ok w
  | op :: ops' => w' ←! step_op op w; run_ops ops' w'
  end.

(** ** Vocabulary of the statements *)

(** The mirrored graph: [y] is an entry of [x->gcConnections]. *)
Definition edge (h : gmap ptr Collectable) (x y : ptr) : Prop :=
  ∃ o, h !! x = Some o ∧ y ∈ gcConnections o.

(** A registered object with a positive root count. *)
Definition rooted (w : World) (r : ptr) : Prop :=
  r ∈ _nodes w ∧ ∃ o, heap w !! r = Some o ∧ (0 < gcRootCount o)%Z.

Definition reachable (w : World) (y : ptr) : Prop :=
  ∃ r, rooted w r ∧ rtc (edge (heap w)) r y.

(** The objects the stamp marks as visited in the current round. *)
Definition marked (sq : N) (h : gmap ptr Collectable) (p : ptr) : Prop :=
  gcSequence <$> h !! p = Some sq.

#[global] Instance marked_dec sq h p : Decision (marked sq h p).
Proof. unfold marked. apply _. Defined.

(** What every state reached from [Collector_init] satisfies: registered
    addresses are live, root counts are not negative, no stamp is ahead of
    the sequence counter. *)
Record mirror_inv (w : World) : Prop := MkMirrorInv {
  inv_registered : ∀ p, p ∈ _nodes w → is_Some (heap w !! p);
  inv_root_count : ∀ p o, heap w !! p = Some o → (0 ≤ gcRootCount o)%Z;
  inv_stamp : ∀ p o, heap w !! p = Some o → (gcSequence o ≤ _sequence w)%N
}.

(** No dangling address can be met by the trace: everything reachable from
    a root is a live object. *)
Definition trace_defined (w : World) : Prop :=
  ∀ p, reachable w p → is_Some (heap w !! p).

(** The root count of a live object, 0 for any other address. *)
Definition root_credit (h : gmap ptr Collectable) (p : ptr) : Z :=
  default 0%Z (gcRootCount <$> h !! p).

(** Every [RemoveRoot] finds a positive credit, where the credit of an
    address is its root count plus the [AddRoot]s replayed so far minus the
    [RemoveRoot]s replayed so far. *)
Fixpoint roots_matched (credit : ptr → Z) (q : list Event.t) : Prop :=
  match q with
  | [] => True
  | e :: q' =>
      match Event.type e with
      | Event.AddRoot =>
          roots_matched
            (λ p, if decide (p = Event.a e) then (credit p + 1)%Z else credit p) q'
      | Event.RemoveRoot =>
          (0 < credit (Event.a e))%Z ∧
          roots_matched
            (λ p, if decide (p = Event.a e) then (credit p - 1)%Z else credit p) q'
      | _ => roots_matched credit q'
      end
  end.

(** The events that name [p] as a new root. *)
Definition adds_root (p : ptr) (e : Event.t) : Prop :=
  Event.type e = Event.AddRoot ∧ Event.a e = p.

#[global] Instance adds_root_dec p e : Decision (adds_root p e).
Proof. unfold adds_root. apply _. Defined.

Definition op_adds_root (p : ptr) (op : Op) : Prop :=
  match op with
  | OpPush es => Exists (adds_root p) es
  | _ => False
  end.

#[global] Instance op_adds_root_dec p op : Decision (op_adds_root p op).
Proof. destruct op; simpl; apply _. Defined.

(** The value of [in_collector()] as thread [t] would read it in [w]. *)
Definition in_collector (t : thread) (w : World) : bool := (InGC t w).1.

(** The part of an object no replay touches. *)
Definition identity_of (o : Collectable) : N * list EdgePtr :=
  (gcSequence o, edge_members o).

(** What a replay can change at most: it deletes nothing, leaves flags,
    sequence counter, stamps and the set of live addresses alone, and only
    adds to the registry. *)
Record replay_frame (w w' : World) : Prop := MkReplayFrame {
  frame_deleted : deleted w' = deleted w;
  frame_inGC : _inGC w' = _inGC w;
  frame_sequence : _sequence w' = _sequence w;
  frame_nodes : _nodes w ⊆ _nodes w';
  frame_heap : identity_of <$> heap w' = identity_of <$> heap w
}.

(** The rounds the mark loop still needs at most: the entries on the stack
    plus, for every object not yet stamped, one round for the object and
    one per connection. *)
Definition unmarked_weight (sq : N) (h : gmap ptr Collectable) : nat :=
  weight (λ o, if decide (gcSequence o = sq) then 0
               else S (length (gcConnections o))) h.

(** Reachability from the seeds of a trace in the heap [h0] the trace
    started from. *)
Definition from_seeds (h0 : gmap ptr Collectable) (seeds : list ptr)
    (p : ptr) : Prop :=
  ∃ s, s ∈ seeds ∧ rtc (edge h0) s p.

(** The invariant of the mark loop. *)
Record mark_inv (sq : N) (h0 : gmap ptr Collectable) (seeds : list ptr)
    (h : gmap ptr Collectable) (nodeStack : list ptr) : Prop := MkMarkInv {
  mark_heap : ∀ p,
    h !! p = if decide (marked sq h p) then stamp sq <$> h0 !! p else h0 !! p;
  mark_sound : ∀ p, marked sq h p → from_seeds h0 seeds p;
  mark_stack : ∀ p, p ∈ nodeStack → from_seeds h0 seeds p;
  mark_seeds : ∀ s, s ∈ seeds → marked sq h s ∨ s ∈ nodeStack;
  mark_closed : ∀ p y,
    marked sq h p → edge h0 p y → marked sq h y ∨ y ∈ nodeStack
}.

(** Thread [t] reads [true] from [in_collector()] in [w'], and every other
    thread reads what it read in [w]. *)
Definition flag_raised (t : thread) (w w' : World) : Prop :=
  in_collector t w' = true
  ∧ ∀ t', t' ≠ t → in_collector t' w' = in_collector t' w.

(** The events a handle owned by [owner] is expected to push when its
    target changes from [old] to [new]: nothing when they are equal,
    otherwise [Disconnect(owner, old)] for a non-null [old] and then
    [Connect(owner, new)] for a non-null [new]. *)
Definition retarget_events (owner old new : ptr) : list Event.t :=
  if decide (old = new) then []
  else (if decide (old = null) then []
        else [Event.mk Event.Disconnect owner old])
       ++ (if decide (new = null) then []
           else [Event.mk Event.Connect owner new]).

(** ** Sample states *)

Definition ev (ty : Event.Type_) (a b : ptr) : Event.t := Event.mk ty a b.

(** One object with a duplicated edge, and one pending [Disconnect]. *)
Definition world_dup : World :=
  MkWorld {[ 1%N := MkCollectable [2%N; 3%N; 2%N] 1 0 [] ]} []
          [ev Event.Disconnect 1 2] {[ 1%N ]} ∅ 0 false.

(** Three fresh objects, nothing registered, nothing pending. *)
Definition world_fresh : World :=
  MkWorld (list_to_map [(1%N, new_Collectable []); (2%N, new_Collectable []);
                        (3%N, new_Collectable [])])
          [] [] ∅ ∅ 0 false.

(** Object 1 is rooted twice and released twice, with an edge to 2. *)
Definition world_roots : World :=
  set_eventQueue
    [ev Event.AddRoot 1 0; ev Event.AddRoot 1 0; ev Event.RemoveRoot 1 0;
     ev Event.Connect 1 2; ev Event.RemoveRoot 1 0]
    world_fresh.

(** The same events, cut into batches in two ways. *)
Definition batches_fine : list (list Event.t) :=
  [[ev Event.AddRoot 1 0]; [ev Event.AddRoot 1 0; ev Event.RemoveRoot 1 0];
   []; [ev Event.Connect 1 2]; [ev Event.RemoveRoot 1 0]].

Definition batches_coarse : list (list Event.t) :=
  [[ev Event.AddRoot 1 0; ev Event.AddRoot 1 0; ev Event.RemoveRoot 1 0;
    ev Event.Connect 1 2; ev Event.RemoveRoot 1 0]].

(** Objects 1 and 2 form a cycle and embed the edge handles that made it;
    1 stays rooted, 2 and 3 were rooted and released. *)
Definition world_cycle : World :=
  MkWorld (list_to_map [(1%N, new_Collectable [MkEdgePtr 1 2]);
                        (2%N, new_Collectable [MkEdgePtr 2 1]);
                        (3%N, new_Collectable [])])
          []
          [ev Event.AddRoot 1 0; ev Event.AddRoot 2 0; ev Event.Connect 1 2;
           ev Event.Connect 2 1; ev Event.RemoveRoot 2 0; ev Event.AddRoot 3 0;
           ev Event.RemoveRoot 3 0]
          ∅ ∅ 0 false.

(** The result of a computation that is known to return. *)
Definition get_Ok (r : result World) (dflt : World) : World :=
  match r with
  | Ok w => w
  | Err _ => dflt
  end.

Definition world_cycle_drained : World :=
  get_Ok (_ProcessEvents (Collect_enter 0 world_cycle)) world_cycle.

Definition world_cycle_collected : World :=
  get_Ok (Collect 0 world_cycle) world_cycle.

(** A root handle on object 2 is stored as an edge of object 1, the edge
    handle is copied, and both the original and the copy are destroyed by
    a mutator thread; then the queue is replayed. *)
Definition copy_then_destroy : result World :=
  r ←! RootPtr_new 2 world_fresh;
  e ←! EdgePtr_from_Root 1 r.1 r.2;
  c ←! EdgePtr_copy e.1 e.2;
  w ←! EdgePtr_destroy 0 e.1 c.2;
  w ←! EdgePtr_destroy 0 c.1 w;
  ProcessEvents w.

(** Object 2 is only ever the target of an edge of the rooted object 1;
    the edge and the root are then dropped. *)
Definition ops_edge_only : list Op :=
  [OpPush [ev Event.AddRoot 1 0; ev Event.Connect 1 2];
   OpCollect 0;
   OpPush [ev Event.Disconnect 1 2; ev Event.RemoveRoot 1 0];
   OpProcessEvents;
   OpCollect 0].

(** Two edges from the rooted object 1 to object 2; one is dropped before
    the first collection, the other before the second. *)
Definition ops_duplicate_first : list Op :=
  [OpPush [ev Event.AddRoot 1 0; ev Event.AddRoot 2 0; ev Event.Connect 1 2;
           ev Event.Connect 1 2; ev Event.RemoveRoot 2 0;
           ev Event.Disconnect 1 2];
   OpCollect 0].

Definition ops_duplicate_second : list Op :=
  ops_duplicate_first ++ [OpPush [ev Event.Disconnect 1 2]; OpCollect 0].

(** The last root of the cycle of [world_cycle] is dropped. *)
Definition ops_drop_cycle : list Op :=
  [OpCollect 0; OpPush [ev Event.RemoveRoot 1 0]; OpCollect 0].

(** ** Observers of the handles *)

(** [T* Get() const] *)
Definition RootPtr_Get (this : RootPtr) : ptr := RootPtr_ptr this.

(** [operator bool() const] *)
Definition RootPtr_bool (this : RootPtr) : bool :=
  bool_decide (RootPtr_ptr this ≠ null).

(** [bool operator==(const RootPtr& other) const] *)
Definition RootPtr_eq (this other : RootPtr) : bool :=
  bool_decide (RootPtr_ptr this = RootPtr_ptr other).

(** [bool operator!=(const RootPtr& other) const] *)
Definition RootPtr_ne (this other : RootPtr) : bool :=
  bool_decide (RootPtr_ptr this ≠ RootPtr_ptr other).

(** [bool operator<(const RootPtr& other) const] *)
Definition RootPtr_lt (this other : RootPtr) : bool :=
  bool_decide (RootPtr_ptr this < RootPtr_ptr other)%N.

(** [operator bool() const] of [EdgePtr] *)
Definition EdgePtr_bool (this : EdgePtr) : bool :=
  bool_decide (EdgePtr_ptr this ≠ null).

(** [bool operator==(const EdgePtr& other) const] *)
Definition EdgePtr_eq (this other : EdgePtr) : bool :=
  bool_decide (EdgePtr_ptr this = EdgePtr_ptr other).

(** [bool operator!=(const EdgePtr& other) const] *)
Definition EdgePtr_ne (this other : EdgePtr) : bool :=
  bool_decide (EdgePtr_ptr this ≠ EdgePtr_ptr other).

(** [bool operator<(const EdgePtr& other) const] *)
Definition EdgePtr_lt (this other : EdgePtr) : bool :=
  bool_decide (EdgePtr_ptr this < EdgePtr_ptr other)%N.

(** ** Further vocabulary *)

(** The events a root handle pushes when its target changes from [old] to
    [new]: nothing when they are equal, otherwise [RemoveRoot(old)] for a
    non-null [old] and then [AddRoot(new)] for a non-null [new]. *)
Definition reroot_events (old new : ptr) : list Event.t :=
  if decide (old = new) then []
  else (if decide (old = null) then []
        else [Event.mk Event.RemoveRoot old null])
       ++ (if decide (new = null) then []
           else [Event.mk Event.AddRoot new null]).

(** The queue holds no more records than its capacity. *)
Definition queue_bounded (w : World) : Prop :=
  (N.of_nat (length (_eventQueue w)) ≤ QUEUE_CAPACITY)%N.

(** Whether the events [es] can all be pushed on the queue of [w]. *)
Definition fits (es : list Event.t) (w : World) : Prop :=
  es = [] ∨ (N.of_nat (length (_eventQueue w) + length es) ≤ QUEUE_CAPACITY)%N.

#[global] Instance fits_dec es w : Decision (fits es w).
Proof. unfold fits. apply _. Defined.

(** The part of an object the mark stage leaves alone. *)
Definition payload_of (o : Collectable) : list ptr * Z * list EdgePtr :=
  (gcConnections o, gcRootCount o, edge_members o).

(** How often [y] occurs in a connection list. *)
Definition occurrences (y : ptr) (l : list ptr) : nat :=
  length (filter (λ x, x = y) l).

(** [1] when [y] is the non-null address [p], [0] otherwise. *)
Definition one_if (y p : ptr) : nat :=
  if decide (p ≠ null ∧ y = p) then 1 else 0.

(** No thread reads [true] from [in_collector()]. *)
Definition flags_lowered (w : World) : Prop :=
  ∀ t, _inGC w !! t ≠ Some true.

(** The target of an edge handle is null or among the mirrored
    connections of its owner. *)
Definition mirrored (w : World) (e : EdgePtr) : Prop :=
  EdgePtr_ptr e = null
  ∨ ∃ o, heap w !! EdgePtr_owner e = Some o ∧ EdgePtr_ptr e ∈ gcConnections o.

(** The events that release a root of [p]. *)
Definition removes_root (p : ptr) (e : Event.t) : Prop :=
  Event.type e = Event.RemoveRoot ∧ Event.a e = p.

#[global] Instance removes_root_dec p e : Decision (removes_root p e).
Proof. unfold removes_root. apply _. Defined.

(** The change of [p]'s root count that the events of [q] ask for. *)
Definition root_balance (p : ptr) (q : list Event.t) : Z :=
  (Z.of_nat (length (filter (adds_root p) q))
   - Z.of_nat (length (filter (removes_root p) q)))%Z.

(** Object 1 with a handle-made edge to object 2, nothing pending. *)
Definition world_edge : World :=
  MkWorld (list_to_map [(1%N, MkCollectable [3%N; 2%N] 1 0 [MkEdgePtr 1 2]);
                        (2%N, new_Collectable []);
                        (3%N, new_Collectable [])])
          [] [] {[ 1%N ]} ∅ 0 false.

(** Object 1 already has two edges to 2; one more is connected and
    disconnected again. *)
Definition world_reconnect : World :=
  set_eventQueue [ev Event.Connect 1 2; ev Event.Disconnect 1 2] world_dup.

(** A queue that is full but for one record. *)
Definition world_nearly_full : World :=
  set_eventQueue (replicate (N.to_nat 31999) (ev Event.Connect 1 2)) world_fresh.

(** The cycle of [world_cycle] after the first collection, with the
    release of its last root pending. *)
Definition world_cycle_unrooted : World :=
  set_eventQueue [ev Event.RemoveRoot 1 0] world_cycle_collected.

Definition world_cycle_unrooted_drained : World :=
  get_Ok (_ProcessEvents (Collect_enter 0 world_cycle_unrooted))
         world_cycle_unrooted.

(** Thread [t], and no other thread, reads [true] from [in_collector()]. *)
Definition raised_only_on (t : thread) (w : World) : Prop :=
  in_collector t w = true ∧ ∀ t', t' ≠ t → in_collector t' w = false.

(** ** Edge handles in place

    An [EdgePtr] lives inside its owner (the [_edges] vector of the
    README's [Node]), and [operator=] changes it there.  The operations
    above take the handle and return its new value; the ones below run
    them on slot [i] of the handles embedded in [owner] and write the
    result back. *)

(** [owner->_edges[i]], read. *)
Definition load_member (owner : ptr) (i : nat) (w : World) : result EdgePtr :=
  match heap w !! owner with
  | None => Err Undefined
  | Some o =>
      match edge_members o !! i with
      | None => Err Undefined
      | Some e => Ok e
      end
  end.

(** [owner->_edges[i]], written. *)
Definition store_member (owner : ptr) (i : nat) (e : EdgePtr) (w : World)
  : result World :=
  match heap w !! owner with
  | None => Err Undefined
  | Some o =>
      if decide (i < length (edge_members o))
      then Ok (set_heap
                 (<[owner := MkCollectable (gcConnections o) (gcRootCount o)
                                           (gcSequence o)
                                           (<[i := e]> (edge_members o))]>
                    (heap w)) w)
      else Err Undefined
  end.

(** [owner->_edges[i] = other] for a root handle [other]. *)
Definition member_assign_Root (owner : ptr) (i : nat) (other : RootPtr)
    (w : World) : result World :=
  this ←! load_member owner i w;
  r ←! EdgePtr_assign_Root this other w;
  store_member owner i r.1 r.2.

(** [owner->_edges[i] = other] for an edge handle [other]. *)
Definition member_assign (owner : ptr) (i : nat) (other : EdgePtr)
    (w : World) : result World :=
  this ←! load_member owner i w;
  r ←! EdgePtr_assign this other w;
  store_member owner i r.1 r.2.

(** A release of a root that object 1 does not have. *)
Definition world_unmatched : World :=
  set_eventQueue [ev Event.RemoveRoot 1 0] world_fresh.

(** ** Basic facts *)

Lemma bind_Ok {A B} (r : result A) (k : A → result B) (y : B) :
  bind r k = Ok y → ∃ x, r = Ok x ∧ k x = Ok y.
Proof. destruct r as [x|e]; simpl; [eauto | discriminate]. Qed.

Ltac inv_bind H :=
  let x := fresh "w" in
  let Hx := fresh "H" x in
  apply bind_Ok in H; destruct H as (x & Hx & H).

Lemma int_incr_Ok x c : int_incr x = Ok c → c = (x + 1)%Z ∧ (x < INT_MAX)%Z.
Proof.
  unfold int_incr. destruct (Z.ltb_spec x INT_MAX); intros [= <-]; lia.
Qed.

Lemma int_decr_Ok x c : int_decr x = Ok c → c = (x - 1)%Z ∧ (INT_MIN < x)%Z.
Proof.
  unfold int_decr. destruct (Z.ltb_spec INT_MIN x); intros [= <-]; lia.
Qed.

(** *** [erase_first] *)


Lemma erase_first_split b l1 l2 :
  b ∉ l1 → erase_first b (l1 ++ b :: l2) = Some (l1 ++ l2).
Proof.
  induction l1 as [|x l1 IH]; simpl.
  - intros _. by rewrite decide_True.
  - rewrite not_elem_of_cons. intros [Hne Hl1].
    rewrite decide_False by done. by rewrite IH.
Qed.

Lemma erase_first_None b adj : erase_first b adj = None → b ∉ adj.
Proof.
  intros H Hin. apply list_elem_of_split_l in Hin as (l1 & l2 & -> & Hl1).
  by rewrite erase_first_split in H.
Qed.

(** *** Frame of the replay *)

Lemma replay_frame_refl w : replay_frame w w.
Proof. by split. Qed.

Lemma replay_frame_trans w1 w2 w3 :
  replay_frame w1 w2 → replay_frame w2 w3 → replay_frame w1 w3.
Proof.
  intros [] []. split; try congruence. set_solver.
Qed.

Lemma identity_insert (h : gmap ptr Collectable) p o o' :
  h !! p = Some o → identity_of o' = identity_of o →
  identity_of <$> <[p := o']> h = identity_of <$> h.
Proof.
  intros Hp Hid. rewrite fmap_insert. apply insert_id.
  by rewrite lookup_fmap, Hp, Hid.
Qed.

Lemma replay_frame_dom w w' : replay_frame w w' → dom (heap w') = dom (heap w).
Proof.
  intros [_ _ _ _ H].
  by rewrite <- (dom_fmap_L identity_of (heap w')), H, dom_fmap_L.
Qed.

Lemma replay_frame_lookup w w' p o :
  replay_frame w w' → heap w !! p = Some o →
  ∃ o', heap w' !! p = Some o' ∧ gcSequence o' = gcSequence o
        ∧ edge_members o' = edge_members o.
Proof.
  intros [_ _ _ _ H] Hp.
  assert ((identity_of <$> heap w') !! p = Some (identity_of o)) as Hl
    by (by rewrite H, lookup_fmap, Hp).
  rewrite lookup_fmap in Hl. destruct (heap w' !! p) as [o'|]; [|done].
  injection Hl as Hs Hm. eauto.
Qed.

Lemma apply_event_frame e w w' :
  apply_event e w = Ok w' →
  replay_frame w w' ∧ _eventQueue w' = _eventQueue w
  ∧ _graphChanged w' = _graphChanged w
  ∧ (∀ p, p ∈ _nodes w' → p ∈ _nodes w ∨ adds_root p e).
Proof.
  unfold apply_event, adds_root.
  destruct (Event.type e) eqn:Ht; simpl;
    destruct (heap w !! Event.a e) as [o|] eqn:Ho; try discriminate.
  - intros H. inv_bind H. injection H as <-. simpl.
    split_and!; [split; simpl; try done; [set_solver|]|done|done|].
    + by eapply identity_insert.
    + intros p. rewrite elem_of_union, elem_of_singleton. intros [->|?]; auto.
  - intros H. inv_bind H. destruct (0 <=? w0)%Z; [|discriminate].
    injection H as <-. simpl.
    split_and!; [split; simpl; try done|done|done|auto].
    by eapply identity_insert.
  - intros [= <-]. simpl.
    split_and!; [split; simpl; try done|done|done|auto].
    by eapply identity_insert.
  - destruct (erase_first _ _) as [adj|]; [|discriminate].
    intros [= <-]. simpl.
    split_and!; [split; simpl; try done|done|done|auto].
    by eapply identity_insert.
Qed.

Lemma replay_Ok_frame q w w' :
  replay q w = Ok w' →
  replay_frame w w'
  ∧ (∀ p, p ∈ _nodes w' → p ∈ _nodes w ∨ Exists (adds_root p) q).
Proof.
  revert w. induction q as [|e q IH]; simpl; intros w H.
  - injection H as <-. split; [apply replay_frame_refl | auto].
  - inv_bind H. apply apply_event_frame in Hw0 as (Hf & _ & _ & Hn).
    apply IH in H as [Hf' Hn']. split.
    + eapply replay_frame_trans; [|done].
      destruct Hf. by split.
    + intros p Hp. destruct (Hn' p Hp) as [Hp'|Hp']; [|by right; right].
      destruct (Hn p Hp') as [?|?]; [by left | by right; left].
Qed.

Lemma replay_Ok_queue q w w' :
  replay q w = Ok w' → _eventQueue w = q → _eventQueue w' = [].
Proof.
  revert w. induction q as [|e q IH]; simpl; intros w H Hq.
  - by injection H as <-.
  - inv_bind H. apply (IH _ H).
    by apply apply_event_frame in Hw0 as (_ & -> & _).
Qed.

Lemma replay_Ok_graphChanged q w w' :
  replay q w = Ok w' →
  _graphChanged w' = if q is [] then _graphChanged w else true.
Proof.
  revert w. induction q as [|e q IH]; simpl; intros w H.
  - by injection H as <-.
  - inv_bind H. apply apply_event_frame in Hw0 as (_ & _ & Hg & _).
    rewrite (IH _ H). destruct q; [by rewrite Hg | done].
Qed.

(** *** The queue *)

Lemma push_events_Ok_inv es w w' :
  push_events es w = Ok w' → w' = set_eventQueue (_eventQueue w ++ es) w.
Proof.
  revert w. induction es as [|e es IH]; simpl; intros w H.
  - injection H as <-. rewrite app_nil_r. by destruct w.
  - inv_bind H. unfold _PushEvent in Hw0. case_decide; [|done].
    injection Hw0 as <-. apply IH in H as ->. simpl.
    by rewrite <- app_assoc.
Qed.

Lemma push_events_fits es w :
  (N.of_nat (length (_eventQueue w) + length es) ≤ QUEUE_CAPACITY)%N →
  push_events es w = Ok (set_eventQueue (_eventQueue w ++ es) w).
Proof.
  revert w. induction es as [|e es IH]; simpl; intros w H.
  - rewrite app_nil_r. by destruct w.
  - unfold _PushEvent. rewrite decide_True by lia. simpl.
    rewrite IH; simpl.
    + by rewrite <- app_assoc.
    + rewrite length_app. simpl. lia.
Qed.

Lemma apply_event_set_queue e x w :
  apply_event e (set_eventQueue x w)
  = w' ←! apply_event e w; Ok (set_eventQueue x w').
Proof.
  unfold apply_event. destruct (Event.type e); simpl;
    destruct (heap w !! Event.a e) as [o|]; simpl; try done.
  - by destruct (int_incr _).
  - destruct (int_decr _) as [c|]; simpl; [|done]. by destruct (0 <=? c)%Z.
  - by destruct (erase_first _ _).
Qed.

Lemma set_graphChanged_set_eventQueue c x w :
  set_graphChanged c (set_eventQueue x w)
  = set_eventQueue x (set_graphChanged c w).
Proof. done. Qed.

Lemma replay_app q1 q2 w :
  replay (q1 ++ q2) w = w1 ←! replay q1 w; replay q2 w1.
Proof.
  revert w. induction q1 as [|e q1 IH]; intros w; [done|]. simpl.
  rewrite !set_graphChanged_set_eventQueue, !apply_event_set_queue.
  destruct (apply_event e (set_graphChanged true w)) as [w0|]; simpl; [|done].
  rewrite IH. destruct q1 as [|e1 q1]; [|done]. simpl. by destruct q2.
Qed.

Lemma ProcessEvents_pushed es w :
  _eventQueue w = [] →
  ProcessEvents (set_eventQueue es w) = replay es w.
Proof.
  intros Hq. unfold ProcessEvents, _ProcessEvents. simpl.
  destruct es; [|done]. simpl. destruct w; simpl in *; by subst.
Qed.

Lemma replay_Ok_queue' q w w' :
  replay q w = Ok w' → _eventQueue w = [] → _eventQueue w' = [].
Proof.
  intros H Hq. destruct q as [|e q]; [by injection H as <-|].
  eapply (replay_Ok_queue (e :: q) (set_eventQueue (e :: q) w)); [|done].
  exact H.
Qed.

(** With an empty queue at the start, running the batches one by one is
    the replay of their concatenation. *)
Lemma run_batches_replay bs w :
  _eventQueue w = [] →
  Forall (λ es, (N.of_nat (length es) ≤ QUEUE_CAPACITY)%N) bs →
  run_batches bs w = replay (concat bs) w.
Proof.
  intros Hq Hfit. revert w Hq.
  induction Hfit as [|es bs Hes Hbs IH]; intros w Hq; [done|]. simpl.
  rewrite push_events_fits by (rewrite Hq; simpl; lia).
  rewrite Hq. simpl. rewrite ProcessEvents_pushed by done.
  rewrite replay_app. destruct (replay es w) as [w2|] eqn:Hw2; simpl; [|done].
  apply IH. by eapply replay_Ok_queue'.
Qed.

(** *** The invariant of the mirror under replay *)

Lemma mirror_inv_init : mirror_inv Collector_init.
Proof. split; simpl; intros p; [set_solver | |]; intros o; by rewrite lookup_empty. Qed.

Lemma apply_event_root_count e w w' :
  map_Forall (λ _ o, (0 ≤ gcRootCount o)%Z) (heap w) →
  apply_event e w = Ok w' →
  map_Forall (λ _ o, (0 ≤ gcRootCount o)%Z) (heap w').
Proof.
  intros Hcnt H p o' Hp. unfold apply_event in H.
  destruct (Event.type e); simpl in H;
    destruct (heap w !! Event.a e) as [o|] eqn:Ho; try discriminate.
  - inv_bind H. injection H as <-. simpl in Hp.
    apply int_incr_Ok in Hw0 as [-> _]. pose proof (Hcnt _ _ Ho). simpl in *.
    rewrite lookup_insert in Hp. case_decide; [|by eapply Hcnt].
    injection Hp as <-. simpl. lia.
  - inv_bind H. destruct (Z.leb_spec 0 w0); [|discriminate].
    injection H as <-. simpl in Hp.
    rewrite lookup_insert in Hp. case_decide; [|by eapply Hcnt].
    by injection Hp as <-.
  - injection H as <-. simpl in Hp. pose proof (Hcnt _ _ Ho).
    rewrite lookup_insert in Hp. case_decide; [|by eapply Hcnt].
    by injection Hp as <-.
  - destruct (erase_first _ _) as [adj|]; [|discriminate].
    injection H as <-. simpl in Hp. pose proof (Hcnt _ _ Ho).
    rewrite lookup_insert in Hp. case_decide; [|by eapply Hcnt].
    by injection Hp as <-.
Qed.

Lemma replay_root_count q w w' :
  map_Forall (λ _ o, (0 ≤ gcRootCount o)%Z) (heap w) →
  replay q w = Ok w' →
  map_Forall (λ _ o, (0 ≤ gcRootCount o)%Z) (heap w').
Proof.
  revert w. induction q as [|e q IH]; simpl; intros w Hcnt H.
  - by injection H as <-.
  - inv_bind H. eapply IH; [|done].
    eapply apply_event_root_count; [|done]. done.
Qed.

Lemma apply_event_inv e w w' :
  mirror_inv w → apply_event e w = Ok w' → mirror_inv w'.
Proof.
  intros [Hreg Hcnt Hst] H.
  pose proof (apply_event_frame _ _ _ H) as (Hf & _ & _ & Hn).
  split.
  - intros p Hp. rewrite <- elem_of_dom, (replay_frame_dom _ _ Hf), elem_of_dom.
    destruct (Hn p Hp) as [?|[Ht <-]]; [by apply Hreg|].
    unfold apply_event in H. rewrite Ht in H. simpl in H.
    by destruct (heap w !! Event.a e).
  - by eapply (apply_event_root_count e w w').
  - intros p o' Hp. rewrite (frame_sequence _ _ Hf).
    destruct Hf as [_ _ _ _ Hh].
    assert ((identity_of <$> heap w) !! p = Some (identity_of o')) as Hl
      by (by rewrite <- Hh, lookup_fmap, Hp).
    rewrite lookup_fmap in Hl. destruct (heap w !! p) as [o|] eqn:Ho; [|done].
    injection Hl as Hs _. rewrite <- Hs. eauto.
Qed.

Lemma mirror_inv_flags c q w :
  mirror_inv w → mirror_inv (set_graphChanged c (set_eventQueue q w)).
Proof. intros []. by split. Qed.

Lemma replay_inv q w w' : mirror_inv w → replay q w = Ok w' → mirror_inv w'.
Proof.
  revert w. induction q as [|e q IH]; simpl; intros w Hinv H.
  - by injection H as <-.
  - inv_bind H. eapply IH; [|done].
    eapply apply_event_inv; [|done]. by apply mirror_inv_flags.
Qed.

(** *** Matched root releases *)

Lemma roots_matched_ext c1 c2 q :
  (∀ p, c1 p = c2 p) → roots_matched c1 q → roots_matched c2 q.
Proof.
  revert c1 c2. induction q as [|e q IH]; simpl; intros c1 c2 Hc; [done|].
  destruct (Event.type e).
  - apply IH. intros p. case_decide; by rewrite Hc.
  - intros [H1 H2]. split; [by rewrite <- Hc|].
    revert H2. apply IH. intros p. case_decide; by rewrite Hc.
  - by apply IH.
  - by apply IH.
Qed.

Lemma root_credit_insert h a o p :
  root_credit (<[a := o]> h) p
  = if decide (p = a) then gcRootCount o else root_credit h p.
Proof.
  unfold root_credit. case_decide as Hp.
  - subst. by rewrite lookup_insert_eq.
  - by rewrite lookup_insert_ne.
Qed.

Lemma roots_matched_no_abort q w :
  roots_matched (root_credit (heap w)) q → replay q w ≠ Err AssertRootCount.
Proof.
  revert w. induction q as [|e q IH]; simpl; intros w Hm; [done|].
  unfold apply_event.
  destruct (Event.type e); simpl;
    destruct (heap w !! Event.a e) as [o|] eqn:Ho; simpl; try done.
  - unfold int_incr. destruct (_ <? _)%Z; simpl; [|done].
    apply IH. simpl. revert Hm. apply roots_matched_ext. intros p.
    rewrite root_credit_insert. case_decide; [|done].
    subst. unfold root_credit. by rewrite Ho.
  - destruct Hm as [Hpos Hm]. unfold root_credit in Hpos. rewrite Ho in Hpos.
    simpl in Hpos. unfold int_decr. destruct (_ <? _)%Z; simpl; [|done].
    destruct (Z.leb_spec 0 (gcRootCount o - 1)); [|lia].
    apply IH. simpl. revert Hm. apply roots_matched_ext. intros p.
    rewrite root_credit_insert. case_decide; [|done].
    subst. unfold root_credit. by rewrite Ho.
  - apply IH. simpl. revert Hm. apply roots_matched_ext. intros p.
    rewrite root_credit_insert. case_decide; [|done].
    subst. unfold root_credit. by rewrite Ho.
  - destruct (erase_first _ _) as [adj|]; [|done].
    apply IH. simpl. revert Hm. apply roots_matched_ext. intros p.
    rewrite root_credit_insert. case_decide; [|done].
    subst. unfold root_credit. by rewrite Ho.
Qed.

(** ** Replay of single events *)



(** C7.  From a state whose root counts are not negative: when every
    [RemoveRoot] of the queue is matched by an earlier [AddRoot] (or by the
    count the object already has), the replay never stops on the
    root-count assertion; whenever a replay returns, matched or not, every
    registered object has a root count of at least 0; and the replay of a
    [RemoveRoot], matched or not, decrements the count and goes on when
    the count was positive, and stops on the assertion when the count
    would become negative. *)
Theorem root_counts_stay_nonnegative (w : World) :
  map_Forall (λ _ o, (0 ≤ gcRootCount o)%Z) (heap w) →
  (roots_matched (root_credit (heap w)) (_eventQueue w) →
   _ProcessEvents w ≠ Err AssertRootCount)
  ∧ (∀ w', _ProcessEvents w = Ok w' →
       ∀ p o, p ∈ _nodes w' → heap w' !! p = Some o → (0 ≤ gcRootCount o)%Z)
  ∧ (∀ a b o q, _eventQueue w = Event.mk Event.RemoveRoot a b :: q →
       heap w !! a = Some o →
       _ProcessEvents w =
       if decide (0 < gcRootCount o)%Z
       then replay q
              (set_heap
                 (<[a := MkCollectable (gcConnections o) (gcRootCount o - 1)
                                       (gcSequence o) (edge_members o)]> (heap w))
                 (set_graphChanged true (set_eventQueue q w)))
       else Err AssertRootCount).
Proof.
  intros Hcnt. split_and!.
  - intros Hm. by apply roots_matched_no_abort.
  - intros w' H p o _ Hp. by eapply (replay_root_count _ _ _ Hcnt H).
  - intros a b o q Hq Ho. unfold _ProcessEvents. rewrite Hq. simpl.
    unfold apply_event. simpl. rewrite Ho.
    pose proof (Hcnt _ _ Ho) as Hge. simpl in Hge.
    unfold int_decr. destruct (Z.ltb_spec INT_MIN (gcRootCount o));
      [|unfold INT_MIN in *; lia]. simpl.
    destruct (Z.leb_spec 0 (gcRootCount o - 1)); case_decide; done || lia.
Qed.

Lemma root_counts_stay_nonnegative_witness :
  _ProcessEvents world_roots ≠ Err AssertRootCount
  ∧ (∃ w', _ProcessEvents world_roots = Ok w' ∧ 1%N ∈ _nodes w'
           ∧ gcRootCount <$> heap w' !! 1%N = Some 0%Z)
  ∧ _ProcessEvents world_unmatched = Err AssertRootCount.
Proof.
  split_and!.
  - apply (root_counts_stay_nonnegative world_roots).
    + apply (bool_decide_unpack _). vm_compute. reflexivity.
    + vm_compute. repeat split.
  - eexists. split; [vm_compute; reflexivity|].
    split; [|vm_compute; reflexivity].
    apply (bool_decide_unpack _). vm_compute. reflexivity.
  - assert (map_Forall (λ _ o, (0 ≤ gcRootCount o)%Z) (heap world_unmatched))
      as Hcnt by (apply (bool_decide_unpack _); vm_compute; reflexivity).
    exact (proj2 (proj2 (root_counts_stay_nonnegative world_unmatched Hcnt))
             1%N 0%N (new_Collectable []) [] eq_refl eq_refl).
Defined.

(** ** Batching *)

(** C8.  Starting with an empty queue, two ways of cutting the same event
    sequence into batches (each small enough for the queue), with one
    [ProcessEvents] call after each batch and no [Collect] in between, end
    in the same outcome: the same state (registry, connections, root
    counts and everything else) or the same failed assertion. *)
Theorem replay_batching_invariant (bs1 bs2 : list (list Event.t)) (w : World) :
  _eventQueue w = [] →
  Forall (λ es, (N.of_nat (length es) ≤ QUEUE_CAPACITY)%N) bs1 →
  Forall (λ es, (N.of_nat (length es) ≤ QUEUE_CAPACITY)%N) bs2 →
  concat bs1 = concat bs2 →
  run_batches bs1 w = run_batches bs2 w.
Proof.
  intros Hq H1 H2 Hc. rewrite !run_batches_replay by done. by rewrite Hc.
Qed.

Lemma replay_batching_invariant_witness :
  run_batches batches_fine world_fresh = run_batches batches_coarse world_fresh
  ∧ ∃ w', run_batches batches_coarse world_fresh = Ok w'.
Proof.
  split.
  - apply replay_batching_invariant.
    + reflexivity.
    + apply (bool_decide_unpack _). vm_compute. reflexivity.
    + apply (bool_decide_unpack _). vm_compute. reflexivity.
    + reflexivity.
  - eexists. vm_compute. reflexivity.
Defined.

(** ** Frame of [ProcessEvents] *)

Lemma run_batches_frame bs w w' :
  run_batches bs w = Ok w' → replay_frame w w'.
Proof.
  revert w. induction bs as [|es bs IH]; simpl; intros w H.
  - injection H as <-. apply replay_frame_refl.
  - inv_bind H. inv_bind H. apply push_events_Ok_inv in Hw0 as ->.
    apply replay_Ok_frame in Hw1 as [Hf _]. apply IH in H.
    eapply replay_frame_trans; [|done]. destruct Hf. by split.
Qed.

(** C9.  Any number of [ProcessEvents] calls, with any events pushed in
    between, deletes nothing and traces nothing: the deletion log, the
    sequence counter, every stamp and the set of live addresses are
    unchanged, and every object that was registered is still registered
    and still alive, whatever its root count has become. *)
Theorem ProcessEvents_destroys_nothing
    (bs : list (list Event.t)) (w w' : World) :
  run_batches bs w = Ok w' →
  deleted w' = deleted w
  ∧ _sequence w' = _sequence w
  ∧ dom (heap w') = dom (heap w)
  ∧ (∀ p o, heap w !! p = Some o →
       ∃ o', heap w' !! p = Some o' ∧ gcSequence o' = gcSequence o)
  ∧ (∀ p, p ∈ _nodes w → p ∈ _nodes w').
Proof.
  intros H. apply run_batches_frame in H as Hf.
  split_and!.
  - by destruct Hf.
  - by destruct Hf.
  - by apply replay_frame_dom.
  - intros p o Hp.
    destruct (replay_frame_lookup _ _ _ _ Hf Hp) as (o' & ? & ? & _). eauto.
  - intros p Hp. destruct Hf as [_ _ _ Hn _]. set_solver.
Qed.

Lemma ProcessEvents_destroys_nothing_witness :
  ∃ w', run_batches batches_fine world_fresh = Ok w'
        ∧ deleted w' = []
        ∧ gcRootCount <$> heap w' !! 1%N = Some 0%Z
        ∧ 1%N ∈ _nodes w'.
Proof.
  eexists. split; [vm_compute; reflexivity|].
  split.
  - refine (proj1 (ProcessEvents_destroys_nothing batches_fine world_fresh _ _)).
    vm_compute. reflexivity.
  - split; [vm_compute; reflexivity|].
    apply (bool_decide_unpack _). vm_compute. reflexivity.
Defined.

(** ** The thread-specific flag and the edge handles *)

Lemma InGC_raised t w : _inGC w !! t = Some true → InGC t w = (true, w).
Proof. unfold InGC. by intros ->. Qed.

Lemma InGC_lowered t w :
  _inGC w !! t ≠ Some true →
  InGC t w = (false, set_inGC (<[t := false]> (_inGC w)) w)
  ∨ InGC t w = (false, w).
Proof.
  unfold InGC. destruct (_inGC w !! t) as [[]|]; intros H; auto. done.
Qed.

Lemma InGC_queue t w : _eventQueue (InGC t w).2 = _eventQueue w.
Proof. unfold InGC. by destruct (_inGC w !! t). Qed.

Lemma destroy_members_raised t ms w :
  _inGC w !! t = Some true → destroy_members t ms w = Ok w.
Proof.
  intros Hf. induction ms as [|m ms IH]; simpl; [done|].
  unfold EdgePtr_destroy. rewrite InGC_raised by done. simpl. done.
Qed.

Lemma delete_node_raised t node o w :
  _inGC w !! t = Some true →
  delete_node t node o w
  = Ok (set_deleted (deleted w ++ [node]) (set_heap (delete node (heap w)) w)).
Proof.
  intros Hf. unfold delete_node. by rewrite destroy_members_raised.
Qed.

(** C3.  When the destroying thread's flag is set, [~EdgePtr] pushes no
    event and changes nothing; otherwise a null handle pushes nothing and
    a non-null handle pushes exactly [Disconnect(owner, target)] at the
    back of the queue.  In particular [delete node], run by a thread whose
    flag is set, leaves the queue as it is whatever edge handles the
    object embeds. *)
Theorem EdgePtr_destroy_events (t : thread) (this : EdgePtr) (w : World) :
  (_inGC w !! t = Some true → EdgePtr_destroy t this w = Ok w)
  ∧ (_inGC w !! t ≠ Some true → EdgePtr_ptr this = null →
     EdgePtr_destroy t this w = Ok (InGC t w).2
     ∧ _eventQueue (InGC t w).2 = _eventQueue w)
  ∧ (_inGC w !! t ≠ Some true → EdgePtr_ptr this ≠ null →
     (N.of_nat (length (_eventQueue w)) < QUEUE_CAPACITY)%N →
     EdgePtr_destroy t this w
     = Ok (set_eventQueue
             (_eventQueue w ++
                [Event.mk Event.Disconnect (EdgePtr_owner this) (EdgePtr_ptr this)])
             (InGC t w).2))
  ∧ (∀ node o, _inGC w !! t = Some true →
     ∃ w', delete_node t node o w = Ok w' ∧ _eventQueue w' = _eventQueue w).
Proof.
  split_and!.
  - intros Hf. unfold EdgePtr_destroy. by rewrite InGC_raised.
  - intros Hf Hnull. split; [|apply InGC_queue].
    unfold EdgePtr_destroy, EdgePtr_Release.
    destruct (InGC_lowered t w Hf) as [-> | ->]; simpl;
      by rewrite decide_True.
  - intros Hf Hnn Hcap.
    unfold EdgePtr_destroy, EdgePtr_Release, RemoveEdge, _PushEvent.
    destruct (InGC_lowered t w Hf) as [-> | ->]; simpl;
      rewrite decide_False by done; by rewrite decide_True.
  - intros node o Hf. rewrite delete_node_raised by done. eauto.
Qed.

Lemma EdgePtr_destroy_events_witness :
  EdgePtr_destroy 7 (MkEdgePtr 1 2) world_fresh
  = Ok (set_eventQueue [Event.mk Event.Disconnect 1 2]
          (set_inGC {[ 7 := false ]} world_fresh))
  ∧ EdgePtr_destroy 7 (MkEdgePtr 1 2) (Collect_enter 7 world_fresh)
    = Ok (Collect_enter 7 world_fresh).
Proof.
  split.
  - refine (proj1 (proj2 (proj2
      (EdgePtr_destroy_events 7 (MkEdgePtr 1 2) world_fresh))) _ _ _).
    + vm_compute. discriminate.
    + vm_compute. discriminate.
    + vm_compute. reflexivity.
  - refine (proj1
      (EdgePtr_destroy_events 7 (MkEdgePtr 1 2) (Collect_enter 7 world_fresh)) _).
    vm_compute. reflexivity.
Defined.

(** ** The sweep loop *)

Lemma lookup_sweep_heap (h : gmap ptr Collectable) dead p :
  foldl (λ h p, delete p h) h dead !! p
  = if decide (p ∈ dead) then None else h !! p.
Proof.
  revert h. induction dead as [|d dead IH]; intros h; cbn [foldl].
  - by rewrite decide_False by set_solver.
  - rewrite IH. destruct (decide (p = d)) as [->|Hne].
    + rewrite lookup_delete_eq, (decide_True _ _ (list_elem_of_here d dead)).
      by case_decide.
    + rewrite lookup_delete_ne by done.
      destruct (decide (p ∈ dead)) as [Hin|Hin].
      * by rewrite decide_True by set_solver.
      * by rewrite decide_False by set_solver.
Qed.

(** The loop relative to the heap [h0] the sweep started from: the marked
    entries of [ns] join [newNodes], the others are deleted in order. *)
Lemma sweep_loop_spec t sq h0 ns X w :
  _inGC w !! t = Some true →
  _sequence w = sq →
  NoDup ns →
  (∀ p, p ∈ ns → is_Some (h0 !! p) ∧ heap w !! p = h0 !! p) →
  sweep_loop t ns X w
  = Ok (list_to_set (filter (marked sq h0) ns) ∪ X,
        set_deleted (deleted w ++ filter (λ p, ¬ marked sq h0 p) ns)
          (set_heap (foldl (λ h p, delete p h) (heap w)
                           (filter (λ p, ¬ marked sq h0 p) ns)) w)).
Proof.
  intros Hf Hsq Hnd. revert X w Hf Hsq.
  induction Hnd as [|node ns Hnode Hnd IH]; intros X w Hf Hsq Hns.
  - simpl. rewrite app_nil_r. f_equal. f_equal; [set_solver|by destruct w].
  - simpl. destruct (Hns node) as [[o Ho] Hw]; [set_solver|].
    rewrite Hw, Ho. case_decide as Hm.
    + assert (marked sq h0 node) as Hmk
        by (unfold marked; rewrite Ho; simpl; congruence).
      rewrite IH; [|done..|intros p Hp; apply Hns; set_solver].
      rewrite filter_cons_True by done.
      rewrite (filter_cons_False (λ p, ¬ marked sq h0 p)) by tauto.
      f_equal. f_equal. set_solver.
    + assert (¬ marked sq h0 node) as Hmk
        by (unfold marked; rewrite Ho; simpl; congruence).
      rewrite delete_node_raised by done. simpl.
      rewrite IH; simpl; [|done..|].
      * rewrite filter_cons_False by done.
        rewrite (filter_cons_True (λ p, ¬ marked sq h0 p)) by done.
        simpl. by rewrite <- app_assoc.
      * intros p Hp. destruct (Hns p) as [? ?]; [set_solver|].
        split; [done|]. rewrite lookup_delete_ne; [done|].
        intros ->. done.
Qed.

(** ** Weights and fuel *)

Lemma weight_empty f : weight f ∅ = 0.
Proof. unfold weight. by rewrite map_fold_empty. Qed.

Lemma weight_insert_fresh f (h : gmap ptr Collectable) p o :
  h !! p = None → weight f (<[p := o]> h) = f o + weight f h.
Proof.
  intros Hp. unfold weight. rewrite map_fold_insert_L; [done| |done].
  intros. lia.
Qed.

Lemma weight_update f (h : gmap ptr Collectable) p o o' :
  h !! p = Some o → weight f (<[p := o']> h) + f o = weight f h + f o'.
Proof.
  intros Hp. rewrite <- (insert_delete_id h p o Hp) at 2.
  rewrite <- (insert_delete_eq h p o').
  rewrite !weight_insert_fresh by apply lookup_delete_eq. lia.
Qed.

Lemma weight_mono f g (h : gmap ptr Collectable) :
  (∀ o, f o ≤ g o) → weight f h ≤ weight g h.
Proof.
  intros Hfg. induction h as [|p o h Hp IH] using map_ind.
  - by rewrite !weight_empty.
  - rewrite !weight_insert_fresh by done. specialize (Hfg o). lia.
Qed.

Lemma unmarked_weight_le sq h : unmarked_weight sq h ≤ heap_weight h.
Proof. apply weight_mono. intros o. case_decide; lia. Qed.

Lemma unmarked_weight_stamp sq (h : gmap ptr Collectable) p o :
  h !! p = Some o → gcSequence o ≠ sq →
  unmarked_weight sq (<[p := stamp sq o]> h) + S (length (gcConnections o))
  = unmarked_weight sq h.
Proof.
  intros Hp Hs. unfold unmarked_weight.
  pose proof (weight_update
    (λ o, if decide (gcSequence o = sq) then 0 else S (length (gcConnections o)))
    h p o (stamp sq o) Hp) as H.
  simpl in H. destruct (decide (gcSequence o = sq)); [done|].
  destruct (decide (sq = sq)); [lia|done].
Qed.

(** The fuel [Collect_mark] hands to the loop is never used up. *)
Lemma mark_loop_fuel sq fuel h nodeStack :
  length nodeStack + unmarked_weight sq h ≤ fuel →
  mark_loop fuel sq h nodeStack ≠ Err OutOfFuel.
Proof.
  revert h nodeStack.
  induction fuel as [|fuel IH]; intros h [|node rest] Hle; simpl; try done.
  - simpl in Hle. lia.
  - destruct (h !! node) as [o|] eqn:Ho; [|done]. case_decide as Hs.
    + apply IH. simpl in Hle. lia.
    + apply IH. pose proof (unmarked_weight_stamp sq h node o Ho Hs).
      rewrite length_app, length_reverse. simpl in Hle. lia.
Qed.

(** ** The mark loop *)

Section mark_loop.

(** The stamp of the round, the heap the round starts from and the seeds. *)
Variables (sq : N) (h0 : gmap ptr Collectable) (seeds : list ptr).

Lemma marked_insert_stamp (h : gmap ptr Collectable) node o p :
  marked sq (<[node := stamp sq o]> h) p ↔ p = node ∨ marked sq h p.
Proof.
  unfold marked. rewrite lookup_insert. case_decide as Hp; simpl.
  - subst. naive_solver.
  - split; [auto|]. intros [?|?]; [by subst|done].
Qed.

Lemma mark_inv_unmarked h nodeStack p o :
  mark_inv sq h0 seeds h nodeStack →
  h !! p = Some o → gcSequence o ≠ sq → h0 !! p = Some o.
Proof.
  intros [Hh _ _ _ _] Hp Hs. specialize (Hh p).
  rewrite decide_False in Hh; [congruence|].
  unfold marked. rewrite Hp. simpl. congruence.
Qed.

Lemma mark_inv_live h nodeStack p :
  mark_inv sq h0 seeds h nodeStack → is_Some (h0 !! p) → is_Some (h !! p).
Proof.
  intros [Hh _ _ _ _] [o Ho]. rewrite (Hh p), Ho. by case_decide.
Qed.

Lemma mark_inv_init :
  (∀ p o, h0 !! p = Some o → gcSequence o ≠ sq) →
  mark_inv sq h0 seeds h0 seeds.
Proof.
  intros Hfresh.
  assert (∀ p, ¬ marked sq h0 p) as Hno.
  { intros p. unfold marked. destruct (h0 !! p) as [o|] eqn:Ho; [|done].
    simpl. intros [= ?]. by eapply Hfresh. }
  split.
  - intros p. by rewrite decide_False.
  - intros p Hp. by destruct (Hno p).
  - intros p Hp. exists p. split; [done|apply rtc_refl].
  - auto.
  - intros p y Hp. by destruct (Hno p).
Qed.

Lemma mark_inv_skip h node rest :
  mark_inv sq h0 seeds h (node :: rest) → marked sq h node →
  mark_inv sq h0 seeds h rest.
Proof.
  intros [Hh Hsound Hstack Hseeds Hclosed] Hm. split; [done|done| | |].
  - intros p Hp. apply Hstack. by right.
  - intros s Hs. destruct (Hseeds s Hs) as [?|Hin]; [by left|].
    apply elem_of_cons in Hin as [->|?]; auto.
  - intros p y Hp Hy. destruct (Hclosed p y Hp Hy) as [?|Hin]; [by left|].
    apply elem_of_cons in Hin as [->|?]; auto.
Qed.

Lemma mark_inv_visit h node rest o :
  mark_inv sq h0 seeds h (node :: rest) →
  h !! node = Some o → gcSequence o ≠ sq →
  mark_inv sq h0 seeds (<[node := stamp sq o]> h)
           (reverse (gcConnections o) ++ rest).
Proof.
  intros Hinv Ho Hs.
  pose proof (mark_inv_unmarked _ _ _ _ Hinv Ho Hs) as Ho0.
  destruct Hinv as [Hh Hsound Hstack Hseeds Hclosed].
  assert (from_seeds h0 seeds node) as Hnode by (apply Hstack; by left).
  split.
  - intros p. rewrite lookup_insert. case_decide as Hp.
    + subst. rewrite decide_True by (apply marked_insert_stamp; auto).
      by rewrite Ho0.
    + rewrite (Hh p). destruct (decide (marked sq h p)) as [Hm|Hm].
      * by rewrite decide_True by (apply marked_insert_stamp; auto).
      * rewrite decide_False; [done|].
        rewrite marked_insert_stamp. intros [?|?]; by subst.
  - intros p. rewrite marked_insert_stamp. intros [->|?]; auto.
  - intros p. rewrite elem_of_app, elem_of_reverse. intros [Hp|Hp].
    + destruct Hnode as (s & Hs' & Hrtc). exists s. split; [done|].
      eapply rtc_r; [done|]. by exists o.
    + apply Hstack. by right.
  - intros s Hs'. rewrite marked_insert_stamp, elem_of_app.
    destruct (Hseeds s Hs') as [?|Hin]; [auto|].
    apply elem_of_cons in Hin as [->|?]; auto.
  - intros p y. rewrite !marked_insert_stamp, elem_of_app, elem_of_reverse.
    intros [->|Hp] Hy.
    + destruct Hy as (o' & Ho' & Hy). rewrite Ho0 in Ho'.
      injection Ho' as <-. auto.
    + destruct (Hclosed p y Hp Hy) as [?|Hin]; [auto|].
      apply elem_of_cons in Hin as [->|?]; auto.
Qed.

(** With enough fuel and no dangling address among the objects the seeds
    reach, the loop returns, and the invariant holds with an empty stack. *)
Lemma mark_loop_inv fuel h nodeStack :
  (∀ p, from_seeds h0 seeds p → is_Some (h0 !! p)) →
  mark_inv sq h0 seeds h nodeStack →
  length nodeStack + unmarked_weight sq h ≤ fuel →
  ∃ h', mark_loop fuel sq h nodeStack = Ok h' ∧ mark_inv sq h0 seeds h' [].
Proof.
  intros Hlive. revert h nodeStack.
  induction fuel as [|fuel IH]; intros h [|node rest] Hinv Hle; simpl; eauto.
  - simpl in Hle. lia.
  - assert (is_Some (h !! node)) as [o Ho].
    { eapply mark_inv_live; [done|]. apply Hlive.
      apply (mark_stack _ _ _ _ _ Hinv). by left. }
    rewrite Ho. case_decide as Hs.
    + apply IH; [|simpl in Hle; lia].
      eapply mark_inv_skip; [done|]. unfold marked. by rewrite Ho, <- Hs.
    + apply IH; [by apply mark_inv_visit|].
      pose proof (unmarked_weight_stamp sq h node o Ho Hs).
      rewrite length_app, length_reverse. simpl in Hle. lia.
Qed.

Lemma mark_inv_complete h p :
  mark_inv sq h0 seeds h [] → from_seeds h0 seeds p → marked sq h p.
Proof.
  intros [_ _ _ Hseeds Hclosed] (s & Hs & Hrtc).
  revert p Hrtc. apply rtc_ind_r.
  - destruct (Hseeds s Hs) as [?|Hin]; [done|]. by apply elem_of_nil in Hin.
  - intros x y _ Hxy IH. destruct (Hclosed x y IH Hxy) as [?|Hin]; [done|].
    by apply elem_of_nil in Hin.
Qed.

(** What the mark loop computes: exactly the objects the seeds reach get
    the new stamp, and nothing else changes. *)
Lemma mark_loop_spec :
  (∀ p o, h0 !! p = Some o → gcSequence o ≠ sq) →
  (∀ p, from_seeds h0 seeds p → is_Some (h0 !! p)) →
  ∃ h', mark_loop (mark_fuel h0 seeds) sq h0 seeds = Ok h'
        ∧ (∀ p, marked sq h' p ↔ from_seeds h0 seeds p)
        ∧ (∀ p, h' !! p = if decide (marked sq h' p)
                          then stamp sq <$> h0 !! p else h0 !! p).
Proof.
  intros Hfresh Hlive.
  destruct (mark_loop_inv (mark_fuel h0 seeds) h0 seeds Hlive)
    as (h' & Hrun & Hinv).
  - by apply mark_inv_init.
  - unfold mark_fuel. pose proof (unmarked_weight_le sq h0). lia.
  - exists h'. split; [done|]. split; [|by destruct Hinv].
    intros p. split; [apply (mark_sound _ _ _ _ _ Hinv)|].
    by apply mark_inv_complete.
Qed.

End mark_loop.

(** ** The stages of [Collect] *)

Lemma elem_of_set_order (X : gset ptr) p : p ∈ set_order X ↔ p ∈ X.
Proof. unfold set_order. by rewrite merge_sort_Permutation, elem_of_elements. Qed.

Lemma NoDup_set_order (X : gset ptr) : NoDup (set_order X).
Proof. unfold set_order. rewrite merge_sort_Permutation. apply NoDup_elements. Qed.

Lemma seed_loop_spec ns (h : gmap ptr Collectable) nodeStack :
  (∀ p, p ∈ ns → is_Some (h !! p)) →
  ∃ st, seed_loop ns h nodeStack = Ok st
        ∧ ∀ s, s ∈ st ↔
               s ∈ nodeStack
               ∨ (s ∈ ns ∧ ∃ o, h !! s = Some o ∧ gcRootCount o ≠ 0%Z).
Proof.
  revert nodeStack. induction ns as [|node ns IH]; intros nodeStack Hns; simpl.
  - exists nodeStack. split; [done|]. intros s. split; [auto|].
    intros [?|[Hs _]]; [done|]. by apply elem_of_nil in Hs.
  - destruct (Hns node) as [o Ho]; [by left|]. rewrite Ho.
    destruct (IH (if decide (gcRootCount o = 0%Z) then nodeStack
                  else node :: nodeStack)) as (st & Hrun & Hst).
    { intros p Hp. apply Hns. by right. }
    exists st. split; [done|]. intros s. rewrite Hst, elem_of_cons.
    case_decide as Hc.
    + split; [naive_solver|]. intros [?|[[->|?] (o' & Ho' & Hc')]]; eauto.
      rewrite Ho in Ho'. by injection Ho' as <-.
    + rewrite elem_of_cons. naive_solver.
Qed.

Lemma size_incr_small x : (x + 1 < SIZE_MOD)%N → size_incr x = (x + 1)%N.
Proof. intros H. unfold size_incr. by apply N.mod_small. Qed.

Lemma from_seeds_reachable w seeds :
  mirror_inv w →
  (∀ s, s ∈ seeds ↔
        s ∈ _nodes w ∧ ∃ o, heap w !! s = Some o ∧ gcRootCount o ≠ 0%Z) →
  ∀ p, from_seeds (heap w) seeds p ↔ reachable w p.
Proof.
  intros Hinv Hseeds p. unfold from_seeds, reachable, rooted. split.
  - intros (s & Hs & Hrtc). exists s. split; [|done].
    apply Hseeds in Hs as (Hn & o & Ho & Hc). split; [done|].
    exists o. split; [done|]. pose proof (inv_root_count _ Hinv _ _ Ho). lia.
  - intros (r & (Hn & o & Ho & Hc) & Hrtc). exists r. split; [|done].
    apply Hseeds. split; [done|]. exists o. split; [done|]. lia.
Qed.

(** The mark stage stamps exactly the reachable objects with the advanced
    sequence number. *)
Lemma Collect_mark_spec w :
  mirror_inv w → (_sequence w + 1 < SIZE_MOD)%N → trace_defined w →
  ∃ h', Collect_mark w
        = Ok (set_heap h' (set_sequence (_sequence w + 1)%N w))
        ∧ (∀ p, marked (_sequence w + 1)%N h' p ↔ reachable w p)
        ∧ (∀ p, h' !! p = if decide (marked (_sequence w + 1)%N h' p)
                          then stamp (_sequence w + 1)%N <$> heap w !! p
                          else heap w !! p).
Proof.
  intros Hinv Hsq Hdef. unfold Collect_mark. rewrite size_incr_small by done.
  simpl.
  destruct (seed_loop_spec (set_order (_nodes w)) (heap w) []) as (seeds & -> & Hseeds).
  { intros p Hp. apply (inv_registered _ Hinv). by apply elem_of_set_order. }
  simpl.
  assert (∀ p, from_seeds (heap w) seeds p ↔ reachable w p) as Hreach.
  { apply from_seeds_reachable; [done|]. intros s. rewrite Hseeds.
    rewrite elem_of_set_order. split; [|auto].
    intros [Hs|?]; [|done]. by apply elem_of_nil in Hs. }
  destruct (mark_loop_spec (_sequence w + 1)%N (heap w) seeds) as (h' & -> & Hm & Hh).
  - intros p o Ho. pose proof (inv_stamp _ Hinv _ _ Ho). lia.
  - intros p Hp. apply Hdef. by apply Hreach.
  - simpl. exists h'. split; [done|]. split; [|done].
    intros p. by rewrite Hm.
Qed.

Lemma Collect_sweep_spec t w :
  _inGC w !! t = Some true →
  (∀ p, p ∈ _nodes w → is_Some (heap w !! p)) →
  Collect_sweep t w
  = Ok (set_graphChanged false
          (set_nodes
             (list_to_set
                (filter (marked (_sequence w) (heap w)) (set_order (_nodes w))))
             (set_deleted
                (deleted w ++
                   filter (λ p, ¬ marked (_sequence w) (heap w) p)
                          (set_order (_nodes w)))
                (set_heap
                   (foldl (λ h p, delete p h) (heap w)
                      (filter (λ p, ¬ marked (_sequence w) (heap w) p)
                              (set_order (_nodes w))))
                   w)))).
Proof.
  intros Hf Hreg. unfold Collect_sweep.
  rewrite (sweep_loop_spec t (_sequence w) (heap w)); try done.
  - simpl. by rewrite union_empty_r_L.
  - apply NoDup_set_order.
  - intros p Hp. split; [|done]. apply Hreg. by apply elem_of_set_order.
Qed.

Lemma Collect_enter_drained_flag t w w1 :
  _ProcessEvents (Collect_enter t w) = Ok w1 →
  _inGC w1 = <[t := true]> (_inGC w).
Proof.
  intros H. apply replay_Ok_frame in H as [Hf _]. by rewrite (frame_inGC _ _ Hf).
Qed.

(** ** Trace and sweep *)

(** The state a [Collect] that finds the graph dirty returns, in closed
    form: [h'] is the heap after marking, [dead] the unmarked registered
    addresses in the order of the sweep. *)
Lemma Collect_dirty_spec t w w1 :
  _ProcessEvents (Collect_enter t w) = Ok w1 →
  _graphChanged w1 = true →
  mirror_inv w1 →
  (_sequence w1 + 1 < SIZE_MOD)%N →
  trace_defined w1 →
  let sq := (_sequence w1 + 1)%N in
  ∃ h',
    let dead := filter (λ p, ¬ marked sq h' p) (set_order (_nodes w1)) in
    (∀ p, marked sq h' p ↔ reachable w1 p)
    ∧ (∀ p, h' !! p = if decide (marked sq h' p)
                      then stamp sq <$> heap w1 !! p else heap w1 !! p)
    ∧ Collect t w
      = Ok (Collect_leave t
              (set_graphChanged false
                 (set_nodes
                    (list_to_set (filter (marked sq h') (set_order (_nodes w1))))
                    (set_deleted (deleted w1 ++ dead)
                       (set_heap (foldl (λ h p, delete p h) h' dead)
                          (set_sequence sq w1)))))).
Proof.
  intros H1 Hd Hinv Hsq Hdef sq.
  destruct (Collect_mark_spec w1 Hinv Hsq Hdef) as (h' & Hmark & Hm & Hh).
  pose proof (Collect_enter_drained_flag _ _ _ H1) as Hflag.
  fold sq in Hmark, Hm, Hh.
  set (wm := set_heap h' (set_sequence sq w1)) in *.
  assert (∀ p, p ∈ _nodes wm → is_Some (heap wm !! p)) as Hreg.
  { intros p Hp. simpl in *. rewrite Hh.
    destruct (inv_registered _ Hinv p Hp) as [o Ho]. rewrite Ho.
    by case_decide. }
  assert (_inGC wm !! t = Some true) as Hraised
    by (simpl; by rewrite Hflag, lookup_insert_eq).
  pose proof (Collect_sweep_spec t wm Hraised Hreg) as Hsweep.
  simpl in Hsweep.
  exists h'. split; [done|]. split; [done|].
  unfold Collect. rewrite H1. simpl. rewrite Hd, Hmark. simpl.
  rewrite Hsweep. simpl. reflexivity.
Qed.

(** C1.  Let [w1] be the mirror after the drain of a [Collect] that finds
    the graph dirty, with the state invariant, a sequence counter that does
    not wrap in this round, and no dangling address reachable from a root.
    Then [Collect] returns; the objects it deletes, each exactly once, are
    the registered objects not reachable in [w1] from a registered object
    with a positive root count; they are gone from the heap and from the
    registry; the registry keeps exactly the reachable registered objects;
    and in the final state every registered object is reachable from a
    registered object with a positive root count. *)
Theorem Collect_sweep_correct (t : thread) (w w1 : World) :
  _ProcessEvents (Collect_enter t w) = Ok w1 →
  _graphChanged w1 = true →
  mirror_inv w1 →
  (_sequence w1 + 1 < SIZE_MOD)%N →
  trace_defined w1 →
  ∃ w2 dead,
    Collect t w = Ok w2
    ∧ deleted w2 = deleted w1 ++ dead
    ∧ NoDup dead
    ∧ (∀ p, p ∈ dead ↔ p ∈ _nodes w1 ∧ ¬ reachable w1 p)
    ∧ (∀ p, p ∈ dead → heap w2 !! p = None)
    ∧ (∀ p, p ∈ _nodes w2 ↔ p ∈ _nodes w1 ∧ reachable w1 p)
    ∧ (∀ p, p ∈ _nodes w2 → reachable w2 p).
Proof.
  intros H1 Hd Hinv Hsq Hdef.
  destruct (Collect_dirty_spec t w w1 H1 Hd Hinv Hsq Hdef)
    as (h' & Hm & Hh & Hrun).
  set (sq := (_sequence w1 + 1)%N) in *.
  set (dead := filter (λ p, ¬ marked sq h' p) (set_order (_nodes w1))) in *.
  assert (∀ p, p ∈ dead ↔ p ∈ _nodes w1 ∧ ¬ reachable w1 p) as Hdead.
  { intros p. unfold dead. rewrite list_elem_of_filter, elem_of_set_order, Hm.
    tauto. }
  assert (∀ x, reachable w1 x →
               foldl (λ h p, delete p h) h' dead !! x
               = stamp sq <$> heap w1 !! x) as Hlive.
  { intros x Hx. rewrite lookup_sweep_heap.
    rewrite decide_False by (rewrite Hdead; tauto).
    rewrite Hh. by rewrite decide_True by (by apply Hm). }
  eexists _, dead. split; [exact Hrun|].
  simpl. split_and!.
  - done.
  - apply NoDup_filter, NoDup_set_order.
  - done.
  - intros p Hp. rewrite lookup_sweep_heap. by rewrite decide_True.
  - intros p. rewrite elem_of_list_to_set, list_elem_of_filter, elem_of_set_order.
    rewrite Hm. tauto.
  - intros p. rewrite elem_of_list_to_set, list_elem_of_filter, elem_of_set_order.
    rewrite Hm. intros [Hp _]. destruct Hp as (r & Hr & Hrtc).
    assert (reachable w1 r) as Hrr by (exists r; split; [done|apply rtc_refl]).
    exists r. split.
    + destruct Hr as (Hn & o & Ho & Hc). split; simpl.
      * rewrite elem_of_list_to_set, list_elem_of_filter, elem_of_set_order.
        rewrite Hm. done.
      * exists (stamp sq o). split; [|done]. by rewrite Hlive, Ho.
    + simpl. revert p Hrtc. apply rtc_ind_r; [apply rtc_refl|].
      intros x y Hx Hxy IH. eapply rtc_r; [done|].
      destruct Hxy as (o & Ho & Hy). exists (stamp sq o). split; [|done].
      rewrite Hlive; [by rewrite Ho|]. exists r. done.
Qed.

(** The invariant survives a [Collect]. *)
Lemma Collect_inv t w w' :
  mirror_inv w →
  (_sequence w + 1 < SIZE_MOD)%N →
  (∀ w1, _ProcessEvents (Collect_enter t w) = Ok w1 → trace_defined w1) →
  Collect t w = Ok w' →
  mirror_inv w'.
Proof.
  intros Hinv Hsq Hdef H.
  destruct (_ProcessEvents (Collect_enter t w)) as [w1|] eqn:H1;
    [|unfold Collect in H; by rewrite H1 in H].
  assert (mirror_inv w1) as Hinv1.
  { eapply replay_inv; [|exact H1]. destruct Hinv. by split. }
  assert (_sequence w1 = _sequence w) as Hs1.
  { apply replay_Ok_frame in H1 as [Hf _]. by rewrite (frame_sequence _ _ Hf). }
  destruct (_graphChanged w1) eqn:Hd.
  - destruct (Collect_dirty_spec t w w1 H1 Hd Hinv1) as (h' & Hm & Hh & Hrun);
      [by rewrite Hs1|by apply Hdef|].
    rewrite Hrun in H. injection H as <-.
    set (sq := (_sequence w1 + 1)%N) in *.
    assert (∀ p o, h' !! p = Some o →
                   (0 ≤ gcRootCount o)%Z ∧ (gcSequence o ≤ sq)%N) as Hobj.
    { intros p o Ho. rewrite Hh in Ho.
      destruct (heap w1 !! p) as [o1|] eqn:Ho1; [|by case_decide].
      pose proof (inv_root_count _ Hinv1 _ _ Ho1).
      pose proof (inv_stamp _ Hinv1 _ _ Ho1).
      case_decide; injection Ho as <-; simpl; unfold sq; lia. }
    split; simpl.
    + intros p. rewrite elem_of_list_to_set, list_elem_of_filter.
      intros [Hp _]. rewrite lookup_sweep_heap.
      rewrite decide_False by (rewrite list_elem_of_filter; tauto).
      unfold marked in Hp. by destruct (h' !! p).
    + intros p o. rewrite lookup_sweep_heap. case_decide; [done|].
      intros Ho. by destruct (Hobj p o Ho).
    + intros p o. rewrite lookup_sweep_heap. case_decide; [done|].
      intros Ho. by destruct (Hobj p o Ho).
  - unfold Collect in H. rewrite H1 in H. simpl in H. rewrite Hd in H.
    injection H as <-. destruct Hinv1. by split.
Qed.

(** Checks that decide the hypotheses of the theorem on a given state. *)
Lemma mirror_inv_check w :
  set_Forall (λ p, is_Some (heap w !! p)) (_nodes w) →
  map_Forall (λ _ o, (0 ≤ gcRootCount o)%Z ∧ (gcSequence o ≤ _sequence w)%N)
             (heap w) →
  mirror_inv w.
Proof.
  intros Hreg Hh. split.
  - intros p Hp. by apply Hreg.
  - intros p o Ho. by destruct (Hh p o Ho).
  - intros p o Ho. by destruct (Hh p o Ho).
Qed.

Lemma trace_defined_check w :
  set_Forall (λ p, is_Some (heap w !! p)) (_nodes w) →
  map_Forall (λ _ o, Forall (λ y, is_Some (heap w !! y)) (gcConnections o))
             (heap w) →
  trace_defined w.
Proof.
  intros Hreg Hh p (r & (Hr & _) & Hrtc).
  revert p Hrtc. apply rtc_ind_r; [by apply Hreg|].
  intros x y _ (o & Ho & Hy) _.
  specialize (Hh x o Ho). simpl in Hh. rewrite Forall_forall in Hh. auto.
Qed.

Lemma Collect_sweep_correct_witness :
  ∃ w2 dead,
    Collect 0 world_cycle = Ok w2
    ∧ deleted w2 = deleted world_cycle_drained ++ dead
    ∧ NoDup dead
    ∧ (∀ p, p ∈ dead ↔ p ∈ _nodes world_cycle_drained
                         ∧ ¬ reachable world_cycle_drained p)
    ∧ (∀ p, p ∈ dead → heap w2 !! p = None)
    ∧ (∀ p, p ∈ _nodes w2 ↔ p ∈ _nodes world_cycle_drained
                             ∧ reachable world_cycle_drained p)
    ∧ (∀ p, p ∈ _nodes w2 → reachable w2 p).
Proof.
  apply (Collect_sweep_correct 0 world_cycle world_cycle_drained).
  - vm_compute. reflexivity.
  - vm_compute. reflexivity.
  - apply mirror_inv_check; apply (bool_decide_unpack _); vm_compute; reflexivity.
  - vm_compute. reflexivity.
  - apply trace_defined_check; apply (bool_decide_unpack _); vm_compute; reflexivity.
Defined.

(** The scenarios of the specification, run on the model. *)

Example Collect_cycle_deleted : deleted world_cycle_collected = [3%N].
Proof. vm_compute. reflexivity. Qed.

Example Collect_cycle_registry :
  elements (_nodes world_cycle_collected) ≡ₚ [1%N; 2%N].
Proof. vm_compute. apply Permutation_swap. Qed.

(** ** What [Collect] leaves behind in general *)

Lemma mark_loop_Ok_live fuel sq (h h' : gmap ptr Collectable) nodeStack p :
  mark_loop fuel sq h nodeStack = Ok h' → is_Some (h !! p) → is_Some (h' !! p).
Proof.
  revert h nodeStack.
  induction fuel as [|fuel IH]; intros h [|node rest]; simpl; try done.
  - by intros [= <-].
  - by intros [= <-].
  - destruct (h !! node) as [o|] eqn:Ho; [|done]. case_decide as Hs.
    + apply IH.
    + intros Hrun Hp. apply (IH _ _ Hrun). rewrite lookup_insert.
      by case_decide.
Qed.

Lemma Collect_mark_Ok w w' :
  Collect_mark w = Ok w' →
  ∃ h', w' = set_heap h' (set_sequence (size_incr (_sequence w)) w)
        ∧ ∀ p, is_Some (heap w !! p) → is_Some (h' !! p).
Proof.
  unfold Collect_mark. intros H. inv_bind H. inv_bind H. injection H as <-.
  exists w1. split; [done|]. intros p. by eapply mark_loop_Ok_live.
Qed.

Lemma sweep_loop_Ok t ns X w X' w' :
  _inGC w !! t = Some true →
  sweep_loop t ns X w = Ok (X', w') →
  _eventQueue w' = _eventQueue w ∧ _inGC w' = _inGC w
  ∧ _sequence w' = _sequence w
  ∧ (∀ p, p ∈ X' → p ∈ X ∨ p ∈ ns)
  ∧ ∃ d, deleted w' = deleted w ++ d
         ∧ (∀ p, p ∈ d → p ∈ ns)
         ∧ (∀ p, p ∉ d → heap w' !! p = heap w !! p).
Proof.
  revert X w. induction ns as [|node ns IH]; simpl; intros X w Hf H.
  - injection H as <- <-. split_and!; [done..|auto|].
    exists []. rewrite app_nil_r. split_and!; [done| |done].
    intros p Hp. by apply elem_of_nil in Hp.
  - destruct (heap w !! node) as [o|] eqn:Ho; [|done]. case_decide.
    + apply IH in H as (? & ? & ? & HX & d & ? & Hd & ?); [|done].
      split_and!; [done..| |].
      * intros p Hp. destruct (HX p Hp) as [Hp'|?]; [|by right; right].
        apply elem_of_union in Hp' as [Hp'|?]; [|by left].
        apply elem_of_singleton in Hp' as ->. right. by left.
      * exists d. split_and!; [done| |done]. intros p Hp. right. auto.
    + rewrite delete_node_raised in H by done. simpl in H.
      apply IH in H as (? & ? & ? & HX & d & Hdel & Hd & Hh); [|done].
      simpl in *. split_and!; [done..| |].
      * intros p Hp. destruct (HX p Hp); [by left|by right; right].
      * exists (node :: d). split_and!.
        -- by rewrite Hdel, <- app_assoc.
        -- intros p [->|Hp]%elem_of_cons; [by left|right; auto].
        -- intros p [Hne Hp]%not_elem_of_cons.
           by rewrite Hh, lookup_delete_ne.
Qed.

Lemma Collect_Ok_frame t w w' :
  Collect t w = Ok w' →
  _eventQueue w' = [] ∧ _graphChanged w' = false
  ∧ _inGC w' = <[t := false]> (_inGC w)
  ∧ (∀ p, p ∈ _nodes w' →
          p ∈ _nodes w ∨ Exists (adds_root p) (_eventQueue w))
  ∧ ∃ d, deleted w' = deleted w ++ d
         ∧ (∀ p, p ∈ d → p ∈ _nodes w ∨ Exists (adds_root p) (_eventQueue w))
         ∧ (∀ p, p ∉ d → is_Some (heap w !! p) → is_Some (heap w' !! p)).
Proof.
  unfold Collect. intros H. inv_bind H. rename w0 into w1. inv_bind H.
  rename w0 into w2. injection H as <-. simpl.
  pose proof (Collect_enter_drained_flag _ _ _ Hw0) as Hflag.
  pose proof (replay_Ok_queue _ _ _ Hw0 eq_refl) as Hq1.
  apply replay_Ok_frame in Hw0 as [Hf Hn]. simpl in *.
  destruct (_graphChanged w1) eqn:Hd.
  - inv_bind Hw1. rename w0 into wm.
    apply Collect_mark_Ok in Hw0 as (h' & -> & Hlive).
    unfold Collect_sweep in Hw1. inv_bind Hw1. destruct w0 as [X' w0].
    injection Hw1 as <-. simpl.
    apply sweep_loop_Ok in Hw0
      as (Hq & Hg & _ & HX & d & Hdel & Hdn & Hh);
      [|simpl; by rewrite Hflag, lookup_insert_eq].
    simpl in *. split_and!.
    + congruence.
    + done.
    + by rewrite Hg, Hflag, insert_insert_eq.
    + intros p Hp. apply Hn. destruct (HX p Hp) as [Hp'|Hp'].
      * by apply elem_of_empty in Hp'.
      * by apply elem_of_set_order in Hp'.
    + exists d. split_and!.
      * by rewrite Hdel, (frame_deleted _ _ Hf).
      * intros p Hp. apply Hn. apply elem_of_set_order. auto.
      * intros p Hp Hlp. rewrite Hh by done. apply Hlive.
        by rewrite <- elem_of_dom, (replay_frame_dom _ _ Hf), elem_of_dom.
  - injection Hw1 as <-. split_and!; [done|done| |done|].
    + by rewrite Hflag, insert_insert_eq.
    + exists []. rewrite app_nil_r. split_and!.
      * by rewrite (frame_deleted _ _ Hf).
      * intros p Hp. by apply elem_of_nil in Hp.
      * intros p _ Hlp.
        by rewrite <- elem_of_dom, (replay_frame_dom _ _ Hf), elem_of_dom.
Qed.

(** ** Idempotence *)

(** C2.  A second [Collect] right after a [Collect] that returned, with
    nothing pushed in between, returns too, deletes nothing and leaves
    registry, heap and sequence counter as they were; run by the same
    thread it leaves the whole state unchanged. *)
Theorem Collect_idempotent (t t' : thread) (w w1 : World) :
  Collect t w = Ok w1 →
  ∃ w2, Collect t' w1 = Ok w2
        ∧ deleted w2 = deleted w1
        ∧ _nodes w2 = _nodes w1
        ∧ heap w2 = heap w1
        ∧ _sequence w2 = _sequence w1
        ∧ (t' = t → w2 = w1).
Proof.
  intros H. apply Collect_Ok_frame in H as (Hq & Hg & Hf & _).
  exists (Collect_leave t' (Collect_enter t' w1)). split.
  - unfold Collect, _ProcessEvents. simpl. rewrite Hq. simpl. by rewrite Hg.
  - split_and!; [done..|]. intros ->.
    unfold Collect_leave, Collect_enter. simpl.
    rewrite insert_insert_eq, Hf, insert_insert_eq, <- Hf. by destruct w1.
Qed.

Lemma Collect_idempotent_witness :
  ∃ w2, Collect 0 world_cycle_collected = Ok w2
        ∧ deleted w2 = deleted world_cycle_collected
        ∧ _nodes w2 = _nodes world_cycle_collected
        ∧ heap w2 = heap world_cycle_collected
        ∧ _sequence w2 = _sequence world_cycle_collected
        ∧ (0 = 0 → w2 = world_cycle_collected).
Proof.
  apply (Collect_idempotent 0 0 world_cycle world_cycle_collected).
  vm_compute. reflexivity.
Defined.

(** ** The flag during [Collect] *)

Lemma in_collector_lookup t w :
  in_collector t w = default false (_inGC w !! t).
Proof. unfold in_collector, InGC. by destruct (_inGC w !! t). Qed.

Lemma flag_raised_insert t w w' :
  _inGC w' = <[t := true]> (_inGC w) → flag_raised t w w'.
Proof.
  intros H. split.
  - by rewrite in_collector_lookup, H, lookup_insert_eq.
  - intros t' Hne. by rewrite !in_collector_lookup, H, lookup_insert_ne.
Qed.

(** The flag of the calling thread at every stage of [Collect], in any
    state: raised from the entry on, lowered on return, and what another
    thread reads is what it read before the call. *)
Lemma Collect_stage_flags (t : thread) (w : World) :
  flag_raised t w (Collect_enter t w)
  ∧ (∀ w1, _ProcessEvents (Collect_enter t w) = Ok w1 →
       flag_raised t w w1
       ∧ ∀ w2, Collect_mark w1 = Ok w2 →
           flag_raised t w w2
           ∧ ∀ w3, Collect_sweep t w2 = Ok w3 → flag_raised t w w3)
  ∧ (∀ w', Collect t w = Ok w' →
       in_collector t w' = false
       ∧ ∀ t', t' ≠ t → in_collector t' w' = in_collector t' w).
Proof.
  split_and!.
  - by apply flag_raised_insert.
  - intros w1 H1. pose proof (Collect_enter_drained_flag _ _ _ H1) as Hf1.
    split; [by apply flag_raised_insert|].
    intros w2 H2. apply Collect_mark_Ok in H2 as (h' & -> & _).
    split; [by apply flag_raised_insert|].
    intros w3 H3. unfold Collect_sweep in H3. inv_bind H3.
    destruct w0 as [X' w0]. injection H3 as <-.
    apply sweep_loop_Ok in Hw0 as (_ & Hg & _);
      [|simpl; by rewrite Hf1, lookup_insert_eq].
    apply flag_raised_insert. simpl in *. congruence.
  - intros w' H. apply Collect_Ok_frame in H as (_ & _ & Hf & _). split.
    + by rewrite in_collector_lookup, Hf, lookup_insert_eq.
    + intros t' Hne. by rewrite !in_collector_lookup, Hf, lookup_insert_ne.
Qed.

Lemma flags_lowered_read t w : flags_lowered w → in_collector t w = false.
Proof.
  intros Hl. rewrite in_collector_lookup. specialize (Hl t).
  by destruct (_inGC w !! t) as [[]|].
Qed.

Lemma flag_raised_only t w w' :
  flags_lowered w → flag_raised t w w' → raised_only_on t w'.
Proof.
  intros Hl [Ht Ho]. split; [done|].
  intros t' Hne. rewrite (Ho t' Hne). by apply flags_lowered_read.
Qed.

(** C4, as the code has it.  [Collect] is entered with no flag raised
    (it is called from one thread at a time).  Then [InGC()] reads [true]
    only on the thread that runs [Collect], and on that thread from the
    entry of the call on: at the start and at the end of the drain, after
    the mark stage and after the sweep; on every other thread it reads
    [false] at each of these points; and once [Collect] has returned it
    reads [false] on every thread. *)
Theorem InGC_raised_throughout_Collect (t : thread) (w : World) :
  flags_lowered w →
  raised_only_on t (Collect_enter t w)
  ∧ (∀ w1, _ProcessEvents (Collect_enter t w) = Ok w1 →
       raised_only_on t w1
       ∧ ∀ w2, Collect_mark w1 = Ok w2 →
           raised_only_on t w2
           ∧ ∀ w3, Collect_sweep t w2 = Ok w3 → raised_only_on t w3)
  ∧ (∀ w', Collect t w = Ok w' → ∀ t', in_collector t' w' = false).
Proof.
  intros Hl. destruct (Collect_stage_flags t w) as (Henter & Hstages & Hret).
  split_and!.
  - by eapply flag_raised_only.
  - intros w1 H1. destruct (Hstages w1 H1) as [Hd Hrest].
    split; [by eapply flag_raised_only|].
    intros w2 H2. destruct (Hrest w2 H2) as [Hm Hsw].
    split; [by eapply flag_raised_only|].
    intros w3 H3. eapply flag_raised_only; [done|]. by apply Hsw.
  - intros w' H t'. destruct (Hret w' H) as [Ht Ho].
    destruct (decide (t' = t)) as [->|Hne]; [done|].
    rewrite (Ho t' Hne). by apply flags_lowered_read.
Qed.

Lemma InGC_raised_throughout_Collect_witness :
  raised_only_on 0 (Collect_enter 0 world_cycle)
  ∧ raised_only_on 0 world_cycle_drained
  ∧ in_collector 0 world_cycle_collected = false
  ∧ in_collector 4 world_cycle_collected = false.
Proof.
  destruct (InGC_raised_throughout_Collect 0 world_cycle
              (λ t, ltac:(vm_compute; discriminate)))
    as (Henter & Hstages & Hret).
  split_and!.
  - exact Henter.
  - refine (proj1 (Hstages world_cycle_drained _)). vm_compute. reflexivity.
  - apply (Hret world_cycle_collected). vm_compute. reflexivity.
  - apply (Hret world_cycle_collected). vm_compute. reflexivity.
Defined.

(** The flag already reads [true] when the drain starts and when the mark
    stage starts, so it is not confined to the sweep. *)
Lemma InGC_false_before_sweep_counterexample :
  in_collector 0 (Collect_enter 0 world_cycle) ≠ false
  ∧ ∃ w1, _ProcessEvents (Collect_enter 0 world_cycle) = Ok w1
          ∧ in_collector 0 w1 ≠ false.
Proof.
  split; [vm_compute; discriminate|].
  exists world_cycle_drained. split; [vm_compute; reflexivity|].
  vm_compute. discriminate.
Qed.

(** ** Events pushed by the edge handles *)

Lemma push_events_app es1 es2 w :
  push_events (es1 ++ es2) w = w' ←! push_events es1 w; push_events es2 w'.
Proof.
  revert w. induction es1 as [|e es1 IH]; intros w; simpl; [done|].
  destruct (_PushEvent e w); simpl; [apply IH|done].
Qed.

Lemma EdgePtr_Retain_events this w :
  EdgePtr_Retain this w
  = push_events (retarget_events (EdgePtr_owner this) null (EdgePtr_ptr this)) w.
Proof.
  unfold EdgePtr_Retain, retarget_events, AddEdge.
  repeat case_decide; try congruence; simpl; try done.
  by destruct (_PushEvent _ w).
Qed.

(** Construction from a root handle. *)
Lemma EdgePtr_from_Root_events owner other w :
  owner ≠ null →
  EdgePtr_from_Root owner other w
  = w' ←! push_events (retarget_events owner null (RootPtr_ptr other)) w;
    Ok (MkEdgePtr owner (RootPtr_ptr other), w').
Proof.
  intros Ho. unfold EdgePtr_from_Root. rewrite decide_False by done.
  by rewrite EdgePtr_Retain_events.
Qed.

Lemma retarget_sequence this new w :
  EdgePtr_ptr this ≠ new →
  (w1 ←! EdgePtr_Release this w;
   w2 ←! EdgePtr_Retain (MkEdgePtr (EdgePtr_owner this) new) w1;
   Ok (MkEdgePtr (EdgePtr_owner this) new, w2))
  = w' ←! push_events
            (retarget_events (EdgePtr_owner this) (EdgePtr_ptr this) new) w;
    Ok (MkEdgePtr (EdgePtr_owner this) new, w').
Proof.
  intros Hne.
  unfold EdgePtr_Release, EdgePtr_Retain, RemoveEdge, AddEdge, retarget_events.
  simpl. repeat case_decide; try congruence; simpl; try done.
  - by destruct (_PushEvent _ w).
  - by destruct (_PushEvent _ w).
  - destruct (_PushEvent _ w) as [w1|]; simpl; [|done].
    by destruct (_PushEvent _ w1).
Qed.

(** Assignment from a root handle. *)
Lemma EdgePtr_assign_Root_events this other w :
  EdgePtr_assign_Root this other w
  = w' ←! push_events
            (retarget_events (EdgePtr_owner this) (EdgePtr_ptr this)
                             (RootPtr_ptr other)) w;
    Ok (MkEdgePtr (EdgePtr_owner this) (RootPtr_ptr other), w').
Proof.
  unfold EdgePtr_assign_Root. case_decide as Heq.
  - unfold retarget_events. rewrite decide_True by done. simpl.
    rewrite <- Heq. by destruct this.
  - by apply retarget_sequence.
Qed.

(** Assignment from an edge handle with the same owner. *)
Lemma EdgePtr_assign_events this other w :
  EdgePtr_owner this = EdgePtr_owner other →
  EdgePtr_assign this other w
  = w' ←! push_events
            (retarget_events (EdgePtr_owner this) (EdgePtr_ptr this)
                             (EdgePtr_ptr other)) w;
    Ok (MkEdgePtr (EdgePtr_owner this) (EdgePtr_ptr other), w').
Proof.
  intros Ho. unfold EdgePtr_assign. rewrite decide_True by done.
  case_decide as Heq.
  - unfold retarget_events. rewrite decide_True by done. simpl.
    rewrite <- Heq. by destruct this.
  - by apply retarget_sequence.
Qed.

(** C5, at the point where the code departs from it.  Copy construction of
    an edge handle with a non-null target pushes no [Connect]: the state is
    returned as it was, although the expected events are not empty.  The
    destructors of the original and of the copy then push two
    [Disconnect]s against the single [Connect] of the original, and the
    replay stops on the assertion that the connection exists. *)
Theorem EdgePtr_copy_pushes_nothing :
  EdgePtr_copy (MkEdgePtr 1 2) world_fresh = Ok (MkEdgePtr 1 2, world_fresh)
  ∧ retarget_events 1 null 2 = [Event.mk Event.Connect 1 2]
  ∧ copy_then_destroy = Err AssertConnection.
Proof. split_and!; vm_compute; reflexivity. Qed.

(** ** Objects that are never rooted *)

Lemma step_op_never_rooted p op w w1 :
  p ∉ _nodes w →
  ¬ Exists (adds_root p) (_eventQueue w) →
  ¬ op_adds_root p op →
  step_op op w = Ok w1 →
  (p ∉ _nodes w1)
  ∧ ¬ Exists (adds_root p) (_eventQueue w1)
  ∧ (∃ d, deleted w1 = deleted w ++ d ∧ p ∉ d)
  ∧ (is_Some (heap w !! p) → is_Some (heap w1 !! p)).
Proof.
  intros Hn Hq Hop H. destruct op as [es| |t]; simpl in *.
  - apply push_events_Ok_inv in H as ->. simpl. split_and!; [done| | |done].
    + rewrite Exists_app. tauto.
    + exists []. rewrite app_nil_r. split; [done|]. by intros ?%elem_of_nil.
  - pose proof (replay_Ok_queue _ _ _ H eq_refl) as Hq1.
    apply replay_Ok_frame in H as [Hf Hn1]. split_and!.
    + intros Hp. destruct (Hn1 p Hp); done.
    + rewrite Hq1. by intros ?%Exists_nil.
    + exists []. rewrite app_nil_r, (frame_deleted _ _ Hf).
      split; [done|]. by intros ?%elem_of_nil.
    + by rewrite <- !elem_of_dom, (replay_frame_dom _ _ Hf).
  - apply Collect_Ok_frame in H as (Hq1 & _ & _ & Hn1 & d & Hdel & Hd & Hh).
    split_and!.
    + intros Hp. destruct (Hn1 p Hp); done.
    + rewrite Hq1. by intros ?%Exists_nil.
    + exists d. split; [done|]. intros Hp. destruct (Hd p Hp); done.
    + apply Hh. intros Hp. destruct (Hd p Hp); done.
Qed.

(** C10.  If [p] is not registered, no pending event and no event pushed
    later is an [AddRoot] naming [p], then whatever sequence of pushes,
    [ProcessEvents] and [Collect] calls runs, [p] is never registered and
    never deleted, and if it was a live object it stays one; being the
    target of [Connect] events makes no difference. *)
Theorem never_rooted_never_destroyed
    (p : ptr) (ops : list Op) (w w' : World) :
  p ∉ _nodes w →
  ¬ Exists (adds_root p) (_eventQueue w) →
  ¬ Exists (op_adds_root p) ops →
  run_ops ops w = Ok w' →
  (p ∉ _nodes w')
  ∧ (∃ d, deleted w' = deleted w ++ d ∧ p ∉ d)
  ∧ (is_Some (heap w !! p) → is_Some (heap w' !! p)).
Proof.
  revert w. induction ops as [|op ops IH]; simpl; intros w Hn Hq Hops H.
  - injection H as <-. split_and!; [done| |done].
    exists []. rewrite app_nil_r. split; [done|]. by intros ?%elem_of_nil.
  - inv_bind H. rewrite Exists_cons in Hops.
    destruct (step_op_never_rooted p op w w0) as (Hn0 & Hq0 & (d0 & Hd0 & Hp0) & Hl0);
      [done|done|tauto|done|].
    destruct (IH w0) as (Hn' & (d & Hd & Hp) & Hl'); [done|done|tauto|done|].
    split_and!; [done| |auto].
    exists (d0 ++ d). split.
    + by rewrite Hd, Hd0, app_assoc.
    + rewrite elem_of_app. tauto.
Qed.

Lemma never_rooted_never_destroyed_witness :
  ∃ w', run_ops ops_edge_only world_fresh = Ok w'
        ∧ deleted w' = [1%N]
        ∧ (2%N ∉ _nodes w')
        ∧ is_Some (heap w' !! 2%N).
Proof.
  eexists. split; [vm_compute; reflexivity|].
  split; [vm_compute; reflexivity|].
  assert (is_Some (heap world_fresh !! 2%N)) as Hlive
    by (apply (bool_decide_unpack _); vm_compute; reflexivity).
  destruct (never_rooted_never_destroyed 2 ops_edge_only world_fresh
              (get_Ok (run_ops ops_edge_only world_fresh) world_fresh))
    as (Hn & _ & Hl).
  - apply (bool_decide_unpack _). vm_compute. reflexivity.
  - apply (bool_decide_unpack _). vm_compute. reflexivity.
  - apply (bool_decide_unpack _). vm_compute. reflexivity.
  - vm_compute. reflexivity.
  - split; [exact Hn | exact (Hl Hlive)].
Defined.

(** ** The fuel of the model is never the reason to stop *)

Lemma bind_never {A B} (r : result A) (k : A → result B) e :
  r ≠ Err e → (∀ x, r = Ok x → k x ≠ Err e) → bind r k ≠ Err e.
Proof.
  destruct r as [x|e']; simpl; intros Hr Hk; [by apply Hk|].
  intros [= ->]. by apply Hr.
Qed.

Lemma apply_event_fuel e w : apply_event e w ≠ Err OutOfFuel.
Proof.
  unfold apply_event, int_incr, int_decr.
  destruct (Event.type e); simpl; destruct (heap w !! Event.a e) as [o|];
    try done.
  - by destruct (_ <? _)%Z.
  - destruct (_ <? _)%Z; simpl; [|done]. by destruct (_ <=? _)%Z.
  - by destruct (erase_first _ _).
Qed.

Lemma replay_fuel q w : replay q w ≠ Err OutOfFuel.
Proof.
  revert w. induction q as [|e q IH]; intros w; simpl; [done|].
  apply bind_never; [apply apply_event_fuel | auto].
Qed.

Lemma seed_loop_fuel ns h nodeStack : seed_loop ns h nodeStack ≠ Err OutOfFuel.
Proof.
  revert nodeStack. induction ns as [|node ns IH]; intros st; simpl; [done|].
  by destruct (h !! node).
Qed.

Lemma seed_loop_length ns h nodeStack st :
  seed_loop ns h nodeStack = Ok st → length st ≤ length nodeStack + length ns.
Proof.
  revert nodeStack. induction ns as [|node ns IH]; intros st0; simpl.
  - intros [= <-]. lia.
  - destruct (h !! node) as [o|]; [|done]. intros H%IH.
    case_decide; simpl in *; lia.
Qed.

Lemma Collect_mark_fuel w : Collect_mark w ≠ Err OutOfFuel.
Proof.
  unfold Collect_mark. apply bind_never; [apply seed_loop_fuel|].
  intros st _. apply bind_never; [|done]. apply mark_loop_fuel.
  unfold mark_fuel. simpl.
  pose proof (unmarked_weight_le (size_incr (_sequence w)) (heap w)). lia.
Qed.

Lemma destroy_members_fuel t ms w : destroy_members t ms w ≠ Err OutOfFuel.
Proof.
  revert w. induction ms as [|m ms IH]; intros w; simpl; [done|].
  apply bind_never; [|auto].
  unfold EdgePtr_destroy, EdgePtr_Release, RemoveEdge, _PushEvent.
  destruct (InGC t w) as [[] w1]; [done|].
  repeat case_decide; done.
Qed.

Lemma sweep_loop_fuel t ns X w : sweep_loop t ns X w ≠ Err OutOfFuel.
Proof.
  revert X w. induction ns as [|node ns IH]; intros X w; simpl; [done|].
  destruct (heap w !! node) as [o|]; [|done]. case_decide; [apply IH|].
  apply bind_never; [|auto]. unfold delete_node.
  apply bind_never; [apply destroy_members_fuel|done].
Qed.

Lemma Collect_fuel t w : Collect t w ≠ Err OutOfFuel.
Proof.
  unfold Collect. apply bind_never; [apply replay_fuel|].
  intros w1 _. apply bind_never; [|done].
  destruct (_graphChanged w1); [|done].
  apply bind_never; [apply Collect_mark_fuel|].
  intros w2 _. unfold Collect_sweep.
  apply bind_never; [apply sweep_loop_fuel|done].
Qed.

(** More fuel than needed changes nothing: the outcome of the loop does not
    depend on the bound chosen by [Collect_mark]. *)
Lemma mark_loop_more_fuel fuel fuel' sq h nodeStack :
  mark_loop fuel sq h nodeStack ≠ Err OutOfFuel →
  fuel ≤ fuel' →
  mark_loop fuel' sq h nodeStack = mark_loop fuel sq h nodeStack.
Proof.
  revert fuel' h nodeStack.
  induction fuel as [|fuel IH]; intros fuel' h [|node rest] Hne Hle;
    try (by destruct fuel').
  destruct fuel' as [|fuel']; [lia|]. simpl in *.
  destruct (h !! node) as [o|]; [|done].
  case_decide; apply IH; done || lia.
Qed.

(** ** Further scenarios *)

Example drop_cycle_deletes_both :
  (w ←! run_ops ops_drop_cycle world_cycle;
   Ok (deleted w, elements (_nodes w), _eventQueue w))
  = Ok ([3%N; 1%N; 2%N], [], []).
Proof. vm_compute. reflexivity. Qed.

Example duplicate_edge_keeps_target :
  (w ←! run_ops ops_duplicate_first world_fresh;
   Ok (deleted w, gcConnections <$> heap w !! 1%N))
  = Ok ([], Some [2%N]).
Proof. vm_compute. reflexivity. Qed.

Example duplicate_edge_second_drop :
  (w ←! run_ops ops_duplicate_second world_fresh; Ok (deleted w))
  = Ok [2%N].
Proof. vm_compute. reflexivity. Qed.

(** * Further properties of the code *)

(** ** Root handles *)

Lemma RootPtr_Retain_events this w :
  RootPtr_Retain this w = push_events (reroot_events null (RootPtr_ptr this)) w.
Proof.
  unfold RootPtr_Retain, reroot_events, AddRoot.
  repeat case_decide; try congruence; simpl; try done.
  by destruct (_PushEvent _ w).
Qed.

Lemma RootPtr_Release_events this w :
  RootPtr_Release this w = push_events (reroot_events (RootPtr_ptr this) null) w.
Proof.
  unfold RootPtr_Release, reroot_events, RemoveRoot.
  repeat case_decide; try congruence; simpl; try done.
  by destruct (_PushEvent _ w).
Qed.

(** X1.  Every operation of a root handle pushes exactly the events of
    the change of target it makes: construction and copy go from null to
    the new target, destruction from the target to null, assignment from
    the old to the new target.  So a null handle never touches the queue,
    assignment of an equal target pushes nothing, and otherwise
    [RemoveRoot(old)] is pushed before [AddRoot(new)]. *)
Theorem RootPtr_events (this other : RootPtr) (p : ptr) (w : World) :
  RootPtr_new p w
  = (w' ←! push_events (reroot_events null p) w; Ok (MkRootPtr p, w'))
  ∧ RootPtr_copy other w
    = (w' ←! push_events (reroot_events null (RootPtr_ptr other)) w;
       Ok (MkRootPtr (RootPtr_ptr other), w'))
  ∧ RootPtr_destroy this w
    = push_events (reroot_events (RootPtr_ptr this) null) w
  ∧ RootPtr_assign this other w
    = (w' ←! push_events
               (reroot_events (RootPtr_ptr this) (RootPtr_ptr other)) w;
       Ok (MkRootPtr (RootPtr_ptr other), w')).
Proof.
  split_and!.
  - unfold RootPtr_new. by rewrite RootPtr_Retain_events.
  - unfold RootPtr_copy. by rewrite RootPtr_Retain_events.
  - apply RootPtr_Release_events.
  - unfold RootPtr_assign. case_decide as Heq.
    + unfold reroot_events. rewrite decide_True by done. simpl.
      rewrite <- Heq. by destruct this.
    + unfold RootPtr_Release, RootPtr_Retain, RemoveRoot, AddRoot, reroot_events.
      simpl. repeat case_decide; try congruence; simpl; try done.
      * by destruct (_PushEvent _ w).
      * by destruct (_PushEvent _ w).
      * destruct (_PushEvent _ w) as [w1|]; simpl; [|done].
        by destruct (_PushEvent _ w1).
Qed.

Lemma reroot_events_new p :
  p ≠ null → reroot_events null p = [Event.mk Event.AddRoot p null].
Proof.
  intros Hp. unfold reroot_events. repeat case_decide; try congruence; done.
Qed.

Lemma reroot_events_drop p :
  p ≠ null → reroot_events p null = [Event.mk Event.RemoveRoot p null].
Proof.
  intros Hp. unfold reroot_events. repeat case_decide; try congruence; done.
Qed.

(** X2.  A root handle on a live object that is constructed and destroyed
    again, with the queue replayed afterwards, leaves every object as it
    was, root count included; what remains is that the object is now
    registered (so a later sweep can reclaim it) and the graph is dirty. *)
Theorem RootPtr_scope_round_trip (p : ptr) (o : Collectable) (w : World) :
  _eventQueue w = [] →
  p ≠ null →
  heap w !! p = Some o →
  (0 ≤ gcRootCount o < INT_MAX)%Z →
  (r ←! RootPtr_new p w;
   w1 ←! RootPtr_destroy r.1 r.2;
   ProcessEvents w1)
  = Ok (set_graphChanged true (set_nodes ({[p]} ∪ _nodes w) w)).
Proof.
  intros Hq Hp Ho Hc.
  unfold RootPtr_new, RootPtr_destroy. rewrite RootPtr_Retain_events. simpl.
  rewrite reroot_events_new by done.
  rewrite push_events_fits by (rewrite Hq; simpl; unfold QUEUE_CAPACITY; lia).
  simpl. rewrite RootPtr_Release_events. simpl.
  rewrite reroot_events_drop by done.
  rewrite push_events_fits
    by (simpl; rewrite Hq; simpl; unfold QUEUE_CAPACITY; lia).
  simpl. rewrite Hq. simpl.
  unfold ProcessEvents, _ProcessEvents. simpl.
  unfold apply_event. simpl. rewrite Ho.
  unfold int_incr. destruct (Z.ltb_spec (gcRootCount o) INT_MAX); [|lia].
  simpl. rewrite lookup_insert_eq. simpl.
  unfold int_decr.
  destruct (Z.ltb_spec INT_MIN (gcRootCount o + 1)); [|unfold INT_MIN in *; lia].
  simpl. destruct (Z.leb_spec 0 (gcRootCount o + 1 - 1)); [|lia].
  simpl. rewrite insert_insert_eq, Z.add_simpl_r.
  rewrite (insert_id (heap w) p) by (rewrite Ho; by destruct o).
  destruct w; simpl in *; by subst.
Qed.

Lemma RootPtr_scope_round_trip_witness :
  (r ←! RootPtr_new 2 world_fresh;
   w1 ←! RootPtr_destroy r.1 r.2;
   ProcessEvents w1)
  = Ok (set_graphChanged true (set_nodes ({[2%N]} ∪ ∅) world_fresh)).
Proof.
  apply (RootPtr_scope_round_trip 2 (new_Collectable []) world_fresh).
  - reflexivity.
  - discriminate.
  - vm_compute. reflexivity.
  - vm_compute. split; [discriminate | reflexivity].
Defined.

(** ** Replay of paired events *)

Lemma erase_first_snoc b l :
  ∃ adj, erase_first b (l ++ [b]) = Some adj
         ∧ adj ≡ₚ l ∧ (b ∉ l → adj = l)
         ∧ (∀ l1 l2, l = l1 ++ (b :: l2) → b ∉ l1 → adj = l1 ++ l2 ++ [b]).
Proof.
  destruct (decide (b ∈ l)) as [Hin|Hin].
  - apply list_elem_of_split_l in Hin as (l1 & l2 & -> & Hl1).
    exists (l1 ++ l2 ++ [b]).
    assert (erase_first b ((l1 ++ b :: l2) ++ [b]) = Some (l1 ++ l2 ++ [b]))
      as He by (rewrite <- app_assoc; simpl; by apply erase_first_split).
    split_and!.
    + done.
    + apply Permutation_app_head. rewrite (Permutation_app_comm l2).
      done.
    + intros Hb. exfalso. apply Hb. set_solver.
    + intros k1 k2 Hk Hk1.
      assert (erase_first b ((k1 ++ b :: k2) ++ [b]) = Some (k1 ++ k2 ++ [b]))
        as He' by (rewrite <- app_assoc; simpl; by apply erase_first_split).
      rewrite <- Hk in He'. congruence.
  - exists l. split_and!; [|done|done|].
    + rewrite (erase_first_split b l []) by done. by rewrite app_nil_r.
    + intros k1 k2 -> _. exfalso. apply Hin. set_solver.
Qed.

(** X3.  Replaying [Connect(a, b)] and then [Disconnect(a, b)] never
    stops on the assertion and gives [a] back its connections as a
    multiset.  The list itself is unchanged when [b] was not connected
    before; otherwise the first earlier occurrence of [b] is the one
    erased and the appended one stays at the back: [l1 ++ b :: l2] with
    [b] not in [l1] becomes [l1 ++ l2 ++ [b]]. *)
Theorem Connect_Disconnect_round_trip
    (a b : ptr) (o : Collectable) (w : World) :
  _eventQueue w
  = [Event.mk Event.Connect a b; Event.mk Event.Disconnect a b] →
  heap w !! a = Some o →
  ∃ adj,
    _ProcessEvents w
    = Ok (set_heap
            (<[a := MkCollectable adj (gcRootCount o) (gcSequence o)
                                  (edge_members o)]> (heap w))
            (set_graphChanged true (set_eventQueue [] w)))
    ∧ adj ≡ₚ gcConnections o
    ∧ (b ∉ gcConnections o → adj = gcConnections o)
    ∧ (∀ l1 l2, gcConnections o = l1 ++ (b :: l2) → b ∉ l1 →
         adj = l1 ++ l2 ++ [b]).
Proof.
  intros Hq Ho.
  destruct (erase_first_snoc b (gcConnections o))
    as (adj & He & Hperm & Hsame & Hsplit).
  exists adj. split; [|done].
  unfold _ProcessEvents. rewrite Hq. simpl.
  unfold apply_event. simpl. rewrite Ho. simpl.
  rewrite lookup_insert_eq. simpl. rewrite He.
  by rewrite insert_insert_eq.
Qed.

Lemma Connect_Disconnect_round_trip_witness :
  _ProcessEvents world_reconnect
  = Ok (set_heap
          (<[1%N := MkCollectable [3%N; 2%N; 2%N] 1 0 []]> (heap world_reconnect))
          (set_graphChanged true (set_eventQueue [] world_reconnect))).
Proof.
  destruct (Connect_Disconnect_round_trip 1 2
              (MkCollectable [2%N; 3%N; 2%N] 1 0 []) world_reconnect
              eq_refl eq_refl)
    as (adj & Hrun & _ & _ & Hsplit).
  rewrite Hrun. simpl in Hsplit.
  rewrite (Hsplit [] [3%N; 2%N] eq_refl (not_elem_of_nil 2%N)).
  reflexivity.
Defined.

(** ** The queue *)

Lemma push_events_blocked es w :
  ¬ fits es w → push_events es w = Err Blocked.
Proof.
  revert w. induction es as [|e es IH]; intros w Hf.
  - destruct Hf. by left.
  - simpl. unfold _PushEvent. case_decide as Hroom; [|done]. simpl.
    apply IH. intros [->|Hfit]; apply Hf; right; simpl in *.
    + lia.
    + rewrite length_app in Hfit. simpl in Hfit. lia.
Qed.

(** X4.  Pushing a sequence of events either appends all of them to the
    back of the queue, in order and with nothing else changed, or blocks;
    it blocks exactly when the sequence is not empty and does not fit the
    32000 records of the queue together with what is already pending. *)
Theorem push_events_all_or_blocked (es : list Event.t) (w : World) :
  push_events es w
  = if decide (fits es w)
    then Ok (set_eventQueue (_eventQueue w ++ es) w)
    else Err Blocked.
Proof.
  case_decide as Hf.
  - destruct Hf as [->|Hf]; [|by apply push_events_fits].
    simpl. rewrite app_nil_r. by destruct w.
  - by apply push_events_blocked.
Qed.

Example push_on_nearly_full_queue :
  (w ←! AddRoot 1 world_nearly_full; Ok (N.of_nat (length (_eventQueue w))))
  = Ok 32000%N
  ∧ (w ←! AddRoot 1 world_nearly_full; AddEdge 1 2 w) = Err Blocked.
Proof. split; vm_compute; reflexivity. Qed.

(** X5.  [ProcessEvents] is idempotent: when it returns, the queue is
    empty, a second call returns the same state, and the graph counts as
    changed exactly when it did before or at least one event was pending. *)
Theorem ProcessEvents_idempotent (w w1 : World) :
  ProcessEvents w = Ok w1 →
  ProcessEvents w1 = Ok w1
  ∧ _eventQueue w1 = []
  ∧ _graphChanged w1
    = _graphChanged w || bool_decide (_eventQueue w ≠ []).
Proof.
  intros H. pose proof (replay_Ok_queue _ _ _ H eq_refl) as Hq.
  split_and!; [|done|].
  - unfold ProcessEvents, _ProcessEvents. by rewrite Hq.
  - rewrite (replay_Ok_graphChanged _ _ _ H).
    destruct (_eventQueue w); simpl.
    + by rewrite orb_false_r.
    + by rewrite orb_true_r.
Qed.

Lemma ProcessEvents_idempotent_witness :
  ProcessEvents world_cycle_drained = Ok world_cycle_drained
  ∧ _eventQueue world_cycle_drained = []
  ∧ _graphChanged world_cycle_drained
    = _graphChanged (Collect_enter 0 world_cycle)
      || bool_decide (_eventQueue (Collect_enter 0 world_cycle) ≠ []).
Proof.
  apply (ProcessEvents_idempotent (Collect_enter 0 world_cycle)).
  vm_compute. reflexivity.
Defined.

(** ** Sequence counter and flags *)

(** X6.  A [Collect] that returns has cleared the dirty flag, and it has
    advanced the sequence counter by one (modulo 2^64) exactly when the
    graph was dirty on entry or an event was pending; otherwise the
    counter is untouched. *)
Theorem Collect_advances_sequence_when_dirty (t : thread) (w w' : World) :
  Collect t w = Ok w' →
  _graphChanged w' = false
  ∧ _sequence w'
    = if _graphChanged w || bool_decide (_eventQueue w ≠ [])
      then size_incr (_sequence w) else _sequence w.
Proof.
  intros H. pose proof (Collect_Ok_frame _ _ _ H) as (_ & Hg & _).
  split; [done|].
  unfold Collect in H. inv_bind H. rename w0 into w1. inv_bind H.
  rename w0 into w2. injection H as <-. simpl.
  pose proof (Collect_enter_drained_flag _ _ _ Hw0) as Hflag.
  pose proof (replay_Ok_graphChanged _ _ _ Hw0) as Hd.
  apply replay_Ok_frame in Hw0 as [Hf _]. simpl in *.
  assert (_graphChanged w1
          = _graphChanged w || bool_decide (_eventQueue w ≠ [])) as Hd'.
  { rewrite Hd. destruct (_eventQueue w); simpl.
    - by rewrite orb_false_r.
    - by rewrite orb_true_r. }
  rewrite <- Hd'. destruct (_graphChanged w1).
  - inv_bind Hw1. apply Collect_mark_Ok in Hw0 as (h' & -> & _).
    unfold Collect_sweep in Hw1. inv_bind Hw1. destruct w0 as [X' w0].
    injection Hw1 as <-. simpl.
    apply sweep_loop_Ok in Hw0 as (_ & _ & Hs & _);
      [|simpl; by rewrite Hflag, lookup_insert_eq].
    simpl in Hs. by rewrite Hs, (frame_sequence _ _ Hf).
  - injection Hw1 as <-. by rewrite (frame_sequence _ _ Hf).
Qed.

Lemma Collect_advances_sequence_when_dirty_witness :
  _graphChanged world_cycle_collected = false
  ∧ _sequence world_cycle_collected
    = if _graphChanged world_cycle || bool_decide (_eventQueue world_cycle ≠ [])
      then size_incr (_sequence world_cycle) else _sequence world_cycle.
Proof.
  apply (Collect_advances_sequence_when_dirty 0 world_cycle).
  vm_compute. reflexivity.
Defined.

Lemma step_op_flags op w w' :
  flags_lowered w → step_op op w = Ok w' → flags_lowered w'.
Proof.
  intros Hl H t. destruct op as [es| |t0]; simpl in H.
  - apply push_events_Ok_inv in H as ->. apply Hl.
  - apply replay_Ok_frame in H as [Hf _]. rewrite (frame_inGC _ _ Hf).
    apply Hl.
  - apply Collect_Ok_frame in H as (_ & _ & -> & _).
    rewrite lookup_insert. case_decide; [done|apply Hl].
Qed.

(** X7.  Between the calls on the collector no thread reads [true] from
    [InGC()]: if no flag is raised before a sequence of pushes,
    [ProcessEvents] and [Collect] calls, none is raised after it, so an
    edge handle with a non-null target destroyed then, by any thread,
    pushes its [Disconnect]. *)
Theorem flags_lowered_between_calls (ops : list Op) (w w' : World) :
  flags_lowered w →
  run_ops ops w = Ok w' →
  (∀ t, in_collector t w' = false)
  ∧ ∀ t e, EdgePtr_ptr e ≠ null →
      (N.of_nat (length (_eventQueue w')) < QUEUE_CAPACITY)%N →
      ∃ w'', EdgePtr_destroy t e w' = Ok w''
             ∧ _eventQueue w''
               = _eventQueue w' ++
                 [Event.mk Event.Disconnect (EdgePtr_owner e) (EdgePtr_ptr e)].
Proof.
  intros Hl H.
  assert (flags_lowered w') as Hl'.
  { revert w Hl H. induction ops as [|op ops IH]; simpl; intros w Hl H.
    - by injection H as <-.
    - inv_bind H. eapply IH; [|done]. by eapply step_op_flags. }
  split.
  - intros t. rewrite in_collector_lookup. specialize (Hl' t).
    by destruct (_inGC w' !! t) as [[]|].
  - intros t e He Hroom.
    unfold EdgePtr_destroy, EdgePtr_Release, RemoveEdge, _PushEvent.
    destruct (InGC_lowered t w' (Hl' t)) as [-> | ->]; simpl;
      rewrite decide_False by done; rewrite decide_True by done; eauto.
Qed.

Lemma flags_lowered_between_calls_witness :
  in_collector 0 (get_Ok (run_ops ops_drop_cycle world_cycle) world_cycle)
  = false
  ∧ in_collector 3 (get_Ok (run_ops ops_drop_cycle world_cycle) world_cycle)
    = false.
Proof.
  pose proof (proj1 (flags_lowered_between_calls ops_drop_cycle world_cycle
                  (get_Ok (run_ops ops_drop_cycle world_cycle) world_cycle)
                  (λ t, ltac:(vm_compute; discriminate))
                  ltac:(vm_compute; reflexivity))) as H.
  split; apply H.
Defined.

(** ** What marking and sweeping leave alone *)

Lemma payload_insert_stamp sq (h : gmap ptr Collectable) p o :
  h !! p = Some o →
  payload_of <$> <[p := stamp sq o]> h = payload_of <$> h.
Proof.
  intros Hp. rewrite fmap_insert. apply insert_id.
  by rewrite lookup_fmap, Hp.
Qed.

Lemma mark_loop_Ok_payload fuel sq (h h' : gmap ptr Collectable) nodeStack :
  mark_loop fuel sq h nodeStack = Ok h' →
  payload_of <$> h' = payload_of <$> h
  ∧ ∀ p o', h' !! p = Some o' → gcSequence o' = sq ∨ h !! p = Some o'.
Proof.
  revert h nodeStack.
  induction fuel as [|fuel IH]; intros h [|node rest]; simpl; try done.
  - intros [= <-]. auto.
  - intros [= <-]. auto.
  - destruct (h !! node) as [o|] eqn:Ho; [|done]. case_decide as Hs.
    + apply IH.
    + intros Hrun. apply IH in Hrun as [Hpay Hst]. split.
      * by rewrite Hpay, payload_insert_stamp.
      * intros p o' Hp. destruct (Hst p o' Hp) as [?|Hp']; [by left|].
        rewrite lookup_insert in Hp'. case_decide; [|by right].
        injection Hp' as <-. by left.
Qed.

(** X8.  The mark stage writes stamps and nothing else: it advances the
    sequence counter, keeps the set of live addresses and every object's
    connections, root count and embedded handles, and an object either
    carries the new sequence number as its stamp or is exactly as before;
    registry, deletion log, queue and flags are untouched. *)
Theorem Collect_mark_writes_only_stamps (w w' : World) :
  Collect_mark w = Ok w' →
  _sequence w' = size_incr (_sequence w)
  ∧ payload_of <$> heap w' = payload_of <$> heap w
  ∧ (∀ p o', heap w' !! p = Some o' →
       gcSequence o' = _sequence w' ∨ heap w !! p = Some o')
  ∧ _nodes w' = _nodes w ∧ deleted w' = deleted w
  ∧ _eventQueue w' = _eventQueue w ∧ _inGC w' = _inGC w.
Proof.
  unfold Collect_mark. intros H. inv_bind H. inv_bind H. injection H as <-.
  simpl in *. apply mark_loop_Ok_payload in Hw1 as [Hpay Hst].
  split_and!; done.
Qed.

Lemma Collect_mark_writes_only_stamps_witness :
  _sequence (get_Ok (Collect_mark world_cycle_drained) world_cycle) = 1%N
  ∧ payload_of <$> heap (get_Ok (Collect_mark world_cycle_drained) world_cycle)
    = payload_of <$> heap world_cycle_drained.
Proof.
  destruct (Collect_mark_writes_only_stamps world_cycle_drained
              (get_Ok (Collect_mark world_cycle_drained) world_cycle))
    as (Hs & Hp & _).
  - vm_compute. reflexivity.
  - split; [exact Hs | exact Hp].
Defined.

(** X9.  Under the hypotheses of the trace theorem, a [Collect] that finds
    the graph dirty keeps every reachable object, registered or not, with
    its connections, root count and embedded handles, changing only its
    stamp to the new sequence number; and it leaves every unreachable
    object that is not registered exactly as it was. *)
Theorem Collect_keeps_reachable_objects (t : thread) (w w1 : World) :
  _ProcessEvents (Collect_enter t w) = Ok w1 →
  _graphChanged w1 = true →
  mirror_inv w1 →
  (_sequence w1 + 1 < SIZE_MOD)%N →
  trace_defined w1 →
  ∃ w2,
    Collect t w = Ok w2
    ∧ _sequence w2 = (_sequence w1 + 1)%N
    ∧ (∀ p, reachable w1 p →
         heap w2 !! p = stamp (_sequence w2) <$> heap w1 !! p
         ∧ is_Some (heap w2 !! p))
    ∧ (∀ p, ¬ reachable w1 p → p ∉ _nodes w1 → heap w2 !! p = heap w1 !! p).
Proof.
  intros H1 Hd Hinv Hsq Hdef.
  destruct (Collect_dirty_spec t w w1 H1 Hd Hinv Hsq Hdef)
    as (h' & Hm & Hh & Hrun).
  eexists. split; [exact Hrun|]. simpl. split; [done|]. split.
  - intros p Hp. rewrite lookup_sweep_heap.
    rewrite decide_False
      by (rewrite list_elem_of_filter, Hm; tauto).
    rewrite Hh. rewrite decide_True by (by apply Hm).
    split; [done|]. destruct (Hdef p Hp) as [o ->]. by eexists.
  - intros p Hp Hn. rewrite lookup_sweep_heap.
    rewrite decide_False
      by (rewrite list_elem_of_filter, elem_of_set_order; tauto).
    rewrite Hh. by rewrite decide_False by (by rewrite Hm).
Qed.

Lemma Collect_keeps_reachable_objects_witness :
  ∃ w2,
    Collect 0 world_cycle = Ok w2
    ∧ _sequence w2 = (_sequence world_cycle_drained + 1)%N
    ∧ (∀ p, reachable world_cycle_drained p →
         heap w2 !! p = stamp (_sequence w2) <$> heap world_cycle_drained !! p
         ∧ is_Some (heap w2 !! p))
    ∧ (∀ p, ¬ reachable world_cycle_drained p →
         p ∉ _nodes world_cycle_drained →
         heap w2 !! p = heap world_cycle_drained !! p).
Proof.
  apply (Collect_keeps_reachable_objects 0 world_cycle world_cycle_drained).
  - vm_compute. reflexivity.
  - vm_compute. reflexivity.
  - apply mirror_inv_check; apply (bool_decide_unpack _); vm_compute; reflexivity.
  - vm_compute. reflexivity.
  - apply trace_defined_check; apply (bool_decide_unpack _); vm_compute; reflexivity.
Defined.

(** ** The state invariant over whole runs *)

Lemma Collect_mark_Ok_payload w w' :
  Collect_mark w = Ok w' →
  ∃ h', w' = set_heap h' (set_sequence (size_incr (_sequence w)) w)
        ∧ payload_of <$> h' = payload_of <$> heap w
        ∧ ∀ p o', h' !! p = Some o' →
            gcSequence o' = size_incr (_sequence w) ∨ heap w !! p = Some o'.
Proof.
  unfold Collect_mark. intros H. inv_bind H. inv_bind H. injection H as <-.
  simpl in *. apply mark_loop_Ok_payload in Hw1 as [Hpay Hst]. eauto.
Qed.

Lemma sweep_loop_sub t ns X w X' w' :
  _inGC w !! t = Some true →
  sweep_loop t ns X w = Ok (X', w') →
  ∀ p o, heap w' !! p = Some o → heap w !! p = Some o.
Proof.
  revert X w. induction ns as [|node ns IH]; simpl; intros X w Hf H.
  - by injection H as <- <-.
  - destruct (heap w !! node) as [o|] eqn:Ho; [|done]. case_decide.
    + exact (IH _ _ Hf H).
    + rewrite delete_node_raised in H by done. simpl in H.
      intros p o' Hp.
      apply (IH _ (set_deleted _ (set_heap _ w)) Hf H) in Hp. simpl in Hp.
      by apply lookup_delete_Some in Hp as [_ ?].
Qed.

Lemma sweep_loop_kept t ns X w X' w' :
  _inGC w !! t = Some true →
  NoDup ns →
  sweep_loop t ns X w = Ok (X', w') →
  ∀ p, p ∈ X' → p ∈ X ∨ (p ∈ ns ∧ is_Some (heap w' !! p)).
Proof.
  intros Hf Hnd. revert X w Hf.
  induction Hnd as [|node ns Hnode Hnd IH]; simpl; intros X w Hf H.
  - injection H as <- <-. auto.
  - destruct (heap w !! node) as [o|] eqn:Ho; [|done]. case_decide.
    + intros p Hp. destruct (IH _ _ Hf H p Hp) as [Hp'|[Hp' Hl]].
      * apply elem_of_union in Hp' as [Hp'|?]; [|by left].
        apply elem_of_singleton in Hp' as ->. right. split; [by left|].
        apply sweep_loop_Ok in H as (_ & _ & _ & _ & d & _ & Hd & Hh);
          [|done].
        rewrite Hh, Ho; [done|]. intros Hin. apply Hnode. auto.
      * right. split; [by right|done].
    + rewrite delete_node_raised in H by done. simpl in H.
      intros p Hp.
      destruct (IH _ (set_deleted _ (set_heap _ w)) Hf H p Hp) as [?|[? ?]];
        [by left|].
      right. split; [by right|done].
Qed.

Lemma Collect_keeps_inv t w w' :
  mirror_inv w →
  (_sequence w + 1 < SIZE_MOD)%N →
  Collect t w = Ok w' →
  mirror_inv w' ∧ (_sequence w' ≤ _sequence w + 1)%N.
Proof.
  intros Hinv Hsq H.
  unfold Collect in H.
  apply bind_Ok in H as (w1 & Hdrain & H).
  apply bind_Ok in H as (w2 & Htrace & H). injection H as <-.
  pose proof (Collect_enter_drained_flag _ _ _ Hdrain) as Hflag.
  assert (mirror_inv w1) as Hinv1.
  { eapply replay_inv; [|exact Hdrain]. destruct Hinv. by split. }
  assert (_sequence w1 = _sequence w) as Hs1.
  { apply replay_Ok_frame in Hdrain as [Hf _].
    by rewrite (frame_sequence _ _ Hf). }
  destruct (_graphChanged w1).
  - apply bind_Ok in Htrace as (wm & Hmark & Hsweep).
    apply Collect_mark_Ok_payload in Hmark as (h' & -> & Hpay & Hst).
    rewrite size_incr_small in * by (by rewrite Hs1).
    unfold Collect_sweep in Hsweep.
    apply bind_Ok in Hsweep as ([X' w3] & Hloop & Hsweep).
    injection Hsweep as <-.
    assert (_inGC (set_heap h' (set_sequence (_sequence w1 + 1)%N w1)) !! t
            = Some true) as Hraised
      by (simpl; by rewrite Hflag, lookup_insert_eq).
    pose proof (sweep_loop_sub _ _ _ _ _ _ Hraised Hloop) as Hsub.
    pose proof (sweep_loop_kept _ _ _ _ _ _ Hraised
                  (NoDup_set_order _) Hloop) as Hkept.
    apply sweep_loop_Ok in Hloop as (_ & _ & Hs3 & _); [|done].
    simpl in *. split; [|rewrite Hs3, Hs1; lia].
    split; simpl.
    + intros p Hp. destruct (Hkept p Hp) as [Hp'|[_ ?]]; [|done].
      by apply elem_of_empty in Hp'.
    + intros p o Ho. apply Hsub in Ho.
      assert ((payload_of <$> heap w1) !! p = Some (payload_of o)) as Hl
        by (by rewrite <- Hpay, lookup_fmap, Ho).
      rewrite lookup_fmap in Hl.
      destruct (heap w1 !! p) as [o1|] eqn:Ho1; [|done].
      injection Hl as _ Hc _. rewrite <- Hc.
      by apply (inv_root_count _ Hinv1 p o1).
    + intros p o Ho. apply Hsub in Ho. rewrite Hs3.
      destruct (Hst p o Ho) as [->|Ho1]; [lia|].
      pose proof (inv_stamp _ Hinv1 _ _ Ho1). lia.
  - injection Htrace as <-. split; [|simpl; lia].
    destruct Hinv1. by split.
Qed.

Lemma step_op_keeps_inv op w w' :
  mirror_inv w →
  (_sequence w + 1 < SIZE_MOD)%N →
  step_op op w = Ok w' →
  mirror_inv w' ∧ (_sequence w' ≤ _sequence w + 1)%N.
Proof.
  intros Hinv Hsq H. destruct op as [es| |t]; simpl in H.
  - apply push_events_Ok_inv in H as ->. split; [|simpl; lia].
    destruct Hinv. by split.
  - split; [by eapply replay_inv|].
    apply replay_Ok_frame in H as [Hf _]. rewrite (frame_sequence _ _ Hf). lia.
  - by eapply Collect_keeps_inv.
Qed.

(** X10.  The state invariant (every registered address is a live
    object, no root count is negative, no stamp is ahead of the sequence
    counter) is kept by every run of pushes, [ProcessEvents] and [Collect]
    calls that returns, as long as the sequence counter cannot wrap during
    the run. *)
Theorem run_ops_keeps_invariant (ops : list Op) (w w' : World) :
  mirror_inv w →
  (_sequence w + N.of_nat (length ops) < SIZE_MOD)%N →
  run_ops ops w = Ok w' →
  mirror_inv w'.
Proof.
  revert w. induction ops as [|op ops IH]; simpl; intros w Hinv Hsq H.
  - by injection H as <-.
  - inv_bind H.
    destruct (step_op_keeps_inv op w w0 Hinv) as [Hinv0 Hs0]; [lia|done|].
    apply (IH w0); [done|lia|done].
Qed.

Lemma run_ops_keeps_invariant_witness :
  mirror_inv (get_Ok (run_ops ops_edge_only world_fresh) world_fresh).
Proof.
  apply (run_ops_keeps_invariant ops_edge_only world_fresh).
  - apply mirror_inv_check; apply (bool_decide_unpack _); vm_compute; reflexivity.
  - vm_compute. reflexivity.
  - vm_compute. reflexivity.
Defined.

(** ** Edge handles and the mirrored connections *)

Lemma occurrences_app y l1 l2 :
  occurrences y (l1 ++ l2) = occurrences y l1 + occurrences y l2.
Proof. unfold occurrences. by rewrite filter_app, length_app. Qed.

Lemma occurrences_singleton y x :
  occurrences y [x] = if decide (x = y) then 1 else 0.
Proof.
  unfold occurrences. rewrite filter_cons. by case_decide.
Qed.

Lemma occurrences_erase b l l' y :
  erase_first b l = Some l' →
  occurrences y l' + (if decide (b = y) then 1 else 0) = occurrences y l.
Proof.
  revert l'. induction l as [|x l IH]; simpl; intros l' H; [done|].
  case_decide as Hx.
  - injection H as <-. subst x.
    change (b :: l) with ([b] ++ l).
    rewrite occurrences_app, occurrences_singleton. lia.
  - destruct (erase_first b l) as [l0|]; [|done]. injection H as <-.
    specialize (IH l0 eq_refl).
    change (x :: l0) with ([x] ++ l0). change (x :: l) with ([x] ++ l).
    rewrite !occurrences_app. lia.
Qed.

Lemma one_if_null y : one_if y null = 0.
Proof. unfold one_if. case_decide as H; [by destruct H|done]. Qed.

Lemma one_if_nonnull y p :
  p ≠ null → one_if y p = if decide (p = y) then 1 else 0.
Proof.
  intros Hp. unfold one_if. repeat case_decide; try done.
  - destruct H as [_ ?]. congruence.
  - exfalso. apply H. split; congruence.
Qed.

Lemma retarget_events_length owner old new :
  length (retarget_events owner old new) ≤ 2.
Proof. unfold retarget_events. repeat case_decide; simpl; lia. Qed.

(** Replay of the events of a change of target, on a mirror that has the
    old target among the connections of the owner. *)
Lemma replay_retarget owner old new o w :
  heap w !! owner = Some o →
  old = null ∨ old ∈ gcConnections o →
  ∃ w' adj,
    replay (retarget_events owner old new) w = Ok w'
    ∧ heap w'
      = <[owner := MkCollectable adj (gcRootCount o) (gcSequence o)
                                 (edge_members o)]> (heap w)
    ∧ _nodes w' = _nodes w ∧ deleted w' = deleted w
    ∧ (∀ y, occurrences y adj + one_if y old
            = occurrences y (gcConnections o) + one_if y new)
    ∧ (new = null ∨ new ∈ adj).
Proof.
  intros Ho Hold. unfold retarget_events. case_decide as Heq.
  - subst new. exists w, (gcConnections o). simpl. split_and!; try done.
    rewrite insert_id; [done|]. rewrite Ho. by destruct o.
  - destruct (decide (old = null)) as [Hon|Hon];
      destruct (decide (new = null)) as [Hnn|Hnn]; simpl.
    + congruence.
    + unfold apply_event. simpl. rewrite Ho. simpl.
      eexists _, _. split; [reflexivity|]. simpl. split_and!; try done.
      * intros y. subst old. rewrite one_if_null, one_if_nonnull by done.
        rewrite occurrences_app, occurrences_singleton. lia.
      * right. set_solver.
    + destruct Hold as [?|Hold]; [done|].
      apply list_elem_of_split_l in Hold as (l1 & l2 & Hl & Hl1).
      unfold apply_event. simpl. rewrite Ho, Hl, erase_first_split by done.
      simpl. eexists _, _. split; [reflexivity|]. simpl.
      split_and!; try done; [|by left].
      intros y. subst new. rewrite one_if_null, one_if_nonnull by done.
      pose proof (occurrences_erase old (l1 ++ old :: l2) (l1 ++ l2) y
                    (erase_first_split _ _ _ Hl1)). lia.
    + destruct Hold as [?|Hold]; [done|].
      apply list_elem_of_split_l in Hold as (l1 & l2 & Hl & Hl1).
      unfold apply_event. simpl. rewrite Ho, Hl, erase_first_split by done.
      simpl. rewrite lookup_insert_eq. simpl.
      eexists _, _. split; [reflexivity|]. simpl.
      split_and!; try done.
      * by rewrite insert_insert_eq.
      * intros y. rewrite !one_if_nonnull by done.
        pose proof (occurrences_erase old (l1 ++ old :: l2) (l1 ++ l2) y
                      (erase_first_split _ _ _ Hl1)).
        rewrite occurrences_app, occurrences_singleton. lia.
      * right. set_solver.
Qed.

Lemma load_member_Ok owner i o this w :
  heap w !! owner = Some o → edge_members o !! i = Some this →
  load_member owner i w = Ok this.
Proof. intros Ho Hi. unfold load_member. by rewrite Ho, Hi. Qed.

(** X11.  Assigning a root handle, in place, to an edge handle that its
    owner embeds and whose current target is mirrored, and replaying the
    queue, never stops on an assertion.  Afterwards the owner embeds the
    handle with the new target in the same slot; in its connections one
    occurrence of the old target (if non-null) is gone and one of the new
    target (if non-null) is added, every other count is unchanged; no
    other object, the registry and the deletion log change; and the new
    target is mirrored again. *)
Theorem member_assign_Root_moves_edge
    (owner : ptr) (i : nat) (this : EdgePtr) (other : RootPtr)
    (o : Collectable) (w : World) :
  _eventQueue w = [] →
  heap w !! owner = Some o →
  edge_members o !! i = Some this →
  EdgePtr_owner this = owner →
  mirrored w this →
  ∃ w' adj,
    (w1 ←! member_assign_Root owner i other w; ProcessEvents w1) = Ok w'
    ∧ heap w'
      = <[owner :=
            MkCollectable adj (gcRootCount o) (gcSequence o)
              (<[i := MkEdgePtr owner (RootPtr_ptr other)]> (edge_members o))]>
          (heap w)
    ∧ _nodes w' = _nodes w ∧ deleted w' = deleted w
    ∧ (∀ y, occurrences y adj + one_if y (EdgePtr_ptr this)
            = occurrences y (gcConnections o) + one_if y (RootPtr_ptr other))
    ∧ mirrored w' (MkEdgePtr owner (RootPtr_ptr other)).
Proof.
  intros Hq Ho Hi Hown Hm.
  assert (EdgePtr_ptr this = null ∨ EdgePtr_ptr this ∈ gcConnections o) as Hold.
  { destruct Hm as [?|(o' & Ho' & ?)]; [by left|].
    rewrite Hown, Ho in Ho'. injection Ho' as <-. by right. }
  set (om := MkCollectable (gcConnections o) (gcRootCount o) (gcSequence o)
               (<[i := MkEdgePtr owner (RootPtr_ptr other)]> (edge_members o))).
  set (wm := set_heap (<[owner := om]> (heap w)) w).
  assert (heap wm !! owner = Some om) as Hom
    by (simpl; by rewrite lookup_insert_eq).
  destruct (replay_retarget owner (EdgePtr_ptr this) (RootPtr_ptr other)
              om wm Hom Hold)
    as (w' & adj & Hrun & Hh & Hn & Hd & Hcount & Hnew).
  exists w', adj. split_and!; try done.
  - unfold member_assign_Root. rewrite (load_member_Ok owner i o this) by done.
    simpl. rewrite EdgePtr_assign_Root_events, Hown.
    rewrite push_events_fits.
    + simpl. unfold store_member. simpl. rewrite Ho.
      rewrite decide_True by (by eapply lookup_lt_Some). simpl.
      rewrite Hq. simpl.
      change (ProcessEvents
                (set_eventQueue
                   (retarget_events owner (EdgePtr_ptr this) (RootPtr_ptr other))
                   wm) = Ok w').
      rewrite ProcessEvents_pushed by done. exact Hrun.
    + rewrite Hq. simpl.
      pose proof (retarget_events_length owner (EdgePtr_ptr this)
                    (RootPtr_ptr other)).
      unfold QUEUE_CAPACITY. lia.
  - rewrite Hh. unfold wm. simpl. by rewrite insert_insert_eq.
  - unfold mirrored. simpl. destruct Hnew as [?|Hin]; [by left|right].
    eexists. rewrite Hh, lookup_insert_eq. by split.
Qed.

Lemma member_assign_Root_moves_edge_witness :
  ∃ w' adj,
    (w1 ←! member_assign_Root 1 0 (MkRootPtr 3) world_edge; ProcessEvents w1)
    = Ok w'
    ∧ heap w'
      = <[1%N := MkCollectable adj 1 0
                   (<[0 := MkEdgePtr 1 3]> [MkEdgePtr 1 2])]> (heap world_edge)
    ∧ _nodes w' = _nodes world_edge ∧ deleted w' = deleted world_edge
    ∧ (∀ y, occurrences y adj + one_if y 2
            = occurrences y [3%N; 2%N] + one_if y 3)
    ∧ mirrored w' (MkEdgePtr 1 3).
Proof.
  apply (member_assign_Root_moves_edge 1 0 (MkEdgePtr 1 2) (MkRootPtr 3)
           (MkCollectable [3%N; 2%N] 1 0 [MkEdgePtr 1 2]) world_edge).
  - reflexivity.
  - vm_compute. reflexivity.
  - reflexivity.
  - reflexivity.
  - right. exists (MkCollectable [3%N; 2%N] 1 0 [MkEdgePtr 1 2]).
    split; [vm_compute; reflexivity|]. simpl. set_solver.
Defined.

Example member_assign_Root_in_place :
  (w1 ←! member_assign_Root 1 0 (MkRootPtr 3) world_edge;
   w2 ←! ProcessEvents w1;
   Ok ((λ o, (gcConnections o, edge_members o)) <$> heap w2 !! 1%N))
  = Ok (Some ([3%N; 3%N], [MkEdgePtr 1 3])).
Proof. vm_compute. reflexivity. Qed.

(** ** A collection without roots *)

Lemma filter_all {A} (P : A → Prop) `{!∀ x, Decision (P x)} (l : list A) :
  (∀ x, x ∈ l → P x) → filter P l = l.
Proof.
  induction l as [|x l IH]; intros Hall; [done|].
  rewrite filter_cons_True by (apply Hall; by left).
  rewrite IH; [done|]. intros y Hy. apply Hall. by right.
Qed.

Lemma filter_none {A} (P : A → Prop) `{!∀ x, Decision (P x)} (l : list A) :
  (∀ x, x ∈ l → ¬ P x) → filter P l = [].
Proof.
  induction l as [|x l IH]; intros Hall; [done|].
  rewrite filter_cons_False by (apply Hall; by left).
  apply IH. intros y Hy. apply Hall. by right.
Qed.

(** X13.  When the drain of a [Collect] leaves the graph dirty and no
    registered object with a non-zero root count, the call returns with an
    empty registry after deleting every registered object, once each and
    in increasing order of address; objects that were not registered stay
    exactly as they were. *)
Theorem Collect_without_roots_reclaims_all (t : thread) (w w1 : World) :
  _ProcessEvents (Collect_enter t w) = Ok w1 →
  _graphChanged w1 = true →
  mirror_inv w1 →
  (_sequence w1 + 1 < SIZE_MOD)%N →
  map_Forall (λ p o, p ∈ _nodes w1 → gcRootCount o = 0%Z) (heap w1) →
  ∃ w2,
    Collect t w = Ok w2
    ∧ _nodes w2 = ∅
    ∧ deleted w2 = deleted w1 ++ set_order (_nodes w1)
    ∧ (∀ p, p ∈ _nodes w1 → heap w2 !! p = None)
    ∧ (∀ p, p ∉ _nodes w1 → heap w2 !! p = heap w1 !! p).
Proof.
  intros H1 Hd Hinv Hsq Hroots.
  assert (∀ p, ¬ reachable w1 p) as Hnone.
  { intros p (r & (Hr & o & Ho & Hc) & _).
    specialize (Hroots r o Ho Hr). simpl in Hroots. lia. }
  assert (trace_defined w1) as Hdef by (intros p Hp; by destruct (Hnone p)).
  destruct (Collect_dirty_spec t w w1 H1 Hd Hinv Hsq Hdef)
    as (h' & Hm & Hh & Hrun).
  assert (∀ p, ¬ marked (_sequence w1 + 1)%N h' p) as Hunmarked
    by (intros p; rewrite Hm; apply Hnone).
  rewrite (filter_all (λ p, ¬ marked (_sequence w1 + 1)%N h' p)) in Hrun
    by (intros; apply Hunmarked).
  rewrite (filter_none (marked (_sequence w1 + 1)%N h')) in Hrun
    by (intros; apply Hunmarked).
  eexists. split; [exact Hrun|]. simpl. split_and!; [done|done| |].
  - intros p Hp. rewrite lookup_sweep_heap.
    by rewrite decide_True by (by apply elem_of_set_order).
  - intros p Hp. rewrite lookup_sweep_heap.
    rewrite decide_False by (by rewrite elem_of_set_order).
    rewrite Hh. by rewrite decide_False.
Qed.

Lemma Collect_without_roots_reclaims_all_witness :
  ∃ w2,
    Collect 0 world_cycle_unrooted = Ok w2
    ∧ _nodes w2 = ∅
    ∧ deleted w2
      = deleted world_cycle_unrooted_drained
        ++ set_order (_nodes world_cycle_unrooted_drained)
    ∧ (∀ p, p ∈ _nodes world_cycle_unrooted_drained → heap w2 !! p = None)
    ∧ (∀ p, p ∉ _nodes world_cycle_unrooted_drained →
            heap w2 !! p = heap world_cycle_unrooted_drained !! p).
Proof.
  apply (Collect_without_roots_reclaims_all 0 world_cycle_unrooted
           world_cycle_unrooted_drained).
  - vm_compute. reflexivity.
  - vm_compute. reflexivity.
  - apply mirror_inv_check; apply (bool_decide_unpack _); vm_compute; reflexivity.
  - vm_compute. reflexivity.
  - apply (bool_decide_unpack _). vm_compute. reflexivity.
Defined.

Example Collect_without_roots_order :
  deleted (get_Ok (Collect 0 world_cycle_unrooted) world_cycle) = [3%N; 1%N; 2%N].
Proof. vm_compute. reflexivity. Qed.

(** ** Exact accounting of the replay *)

Lemma apply_event_registers e w w' p :
  apply_event e w = Ok w' →
  (p ∈ _nodes w' ↔ p ∈ _nodes w ∨ adds_root p e).
Proof.
  unfold apply_event, adds_root.
  destruct (Event.type e) eqn:Ht; simpl;
    destruct (heap w !! Event.a e) as [o|]; try discriminate.
  - intros H. inv_bind H. injection H as <-. simpl.
    rewrite elem_of_union, elem_of_singleton. naive_solver.
  - intros H. inv_bind H. destruct (0 <=? w0)%Z; [|discriminate].
    injection H as <-. simpl. naive_solver.
  - intros [= <-]. simpl. naive_solver.
  - destruct (erase_first _ _); [|discriminate]. intros [= <-]. simpl.
    naive_solver.
Qed.

(** X14.  After a [ProcessEvents] that returns, the registry is the old
    registry plus exactly the addresses named by the [AddRoot] events that
    were pending; no other event registers anything and nothing is ever
    unregistered. *)
Theorem ProcessEvents_registry (w w' : World) (p : ptr) :
  ProcessEvents w = Ok w' →
  (p ∈ _nodes w' ↔ p ∈ _nodes w ∨ Exists (adds_root p) (_eventQueue w)).
Proof.
  unfold ProcessEvents, _ProcessEvents.
  generalize (_eventQueue w) as q. intros q. revert w.
  induction q as [|e q IH]; simpl; intros w H.
  - injection H as <-. rewrite Exists_nil. tauto.
  - inv_bind H. rewrite (IH _ H), (apply_event_registers _ _ _ p Hw0).
    simpl. rewrite Exists_cons. tauto.
Qed.

Lemma ProcessEvents_registry_witness :
  1%N ∈ _nodes (get_Ok (ProcessEvents world_roots) world_roots)
  ∧ (2%N ∉ _nodes (get_Ok (ProcessEvents world_roots) world_roots)).
Proof.
  split.
  - apply (ProcessEvents_registry world_roots _ 1); [vm_compute; reflexivity|].
    right. apply (bool_decide_unpack _). vm_compute. reflexivity.
  - rewrite (ProcessEvents_registry world_roots _ 2)
      by (vm_compute; reflexivity).
    apply (bool_decide_unpack _). vm_compute. reflexivity.
Defined.

Lemma apply_event_root_balance e w w' p o :
  apply_event e w = Ok w' →
  heap w !! p = Some o →
  ∃ o', heap w' !! p = Some o'
        ∧ gcRootCount o' = (gcRootCount o + root_balance p [e])%Z.
Proof.
  unfold root_balance, apply_event. rewrite !filter_cons, !filter_nil.
  unfold adds_root, removes_root.
  destruct e as [ty a b]. destruct ty; simpl;
    destruct (heap w !! a) as [oa|] eqn:Hoa; try discriminate.
  - intros H Hp. apply bind_Ok in H as (c & Hc & H). injection H as <-.
    simpl. apply int_incr_Ok in Hc as [-> _]. rewrite lookup_insert.
    destruct (decide (a = p)) as [->|Hne].
    + rewrite Hoa in Hp. injection Hp as <-.
      eexists. split; [done|]. simpl.
      case_decide as Hd; simpl; [lia|]. destruct Hd. done.
    + eexists. split; [done|].
      case_decide as Hd; simpl; [|lia]. by destruct Hd.
  - intros H Hp. apply bind_Ok in H as (c & Hc & H).
    destruct (0 <=? c)%Z; [|discriminate]. injection H as <-.
    simpl. apply int_decr_Ok in Hc as [-> _]. rewrite lookup_insert.
    destruct (decide (a = p)) as [->|Hne].
    + rewrite Hoa in Hp. injection Hp as <-.
      eexists. split; [done|]. simpl.
      case_decide as Hd; simpl; [lia|]. destruct Hd. done.
    + eexists. split; [done|].
      case_decide as Hd; simpl; [|lia]. by destruct Hd.
  - intros [= <-] Hp. simpl. rewrite lookup_insert.
    destruct (decide (a = p)) as [->|Hne].
    + rewrite Hoa in Hp. injection Hp as <-.
      eexists. split; [done|]. simpl. lia.
    + eexists. split; [done|]. simpl. lia.
  - destruct (erase_first _ _); [|discriminate]. intros [= <-] Hp. simpl.
    rewrite lookup_insert.
    destruct (decide (a = p)) as [->|Hne].
    + rewrite Hoa in Hp. injection Hp as <-.
      eexists. split; [done|]. simpl. lia.
    + eexists. split; [done|]. simpl. lia.
Qed.

Lemma root_balance_cons p e q :
  root_balance p (e :: q) = (root_balance p [e] + root_balance p q)%Z.
Proof.
  unfold root_balance. rewrite !filter_cons, !filter_nil.
  repeat case_decide; simpl; lia.
Qed.

(** X15.  After a [ProcessEvents] that returns, the root count of every
    live object is its old count plus the number of pending [AddRoot]
    events that named it minus the number of pending [RemoveRoot] events
    that named it. *)
Theorem ProcessEvents_root_balance
    (w w' : World) (p : ptr) (o : Collectable) :
  ProcessEvents w = Ok w' →
  heap w !! p = Some o →
  ∃ o', heap w' !! p = Some o'
        ∧ gcRootCount o'
          = (gcRootCount o + root_balance p (_eventQueue w))%Z.
Proof.
  unfold ProcessEvents, _ProcessEvents.
  generalize (_eventQueue w) as q. intros q. revert w o.
  induction q as [|e q IH]; simpl; intros w o H Hp.
  - injection H as <-. exists o. split; [done|].
    unfold root_balance. simpl. lia.
  - inv_bind H.
    destruct (apply_event_root_balance _ _ _ p o Hw0 Hp) as (o1 & Hp1 & Hc1).
    destruct (IH _ _ H Hp1) as (o' & Hp' & Hc').
    exists o'. split; [done|]. rewrite root_balance_cons. lia.
Qed.

Lemma ProcessEvents_root_balance_witness :
  ∃ o', heap (get_Ok (ProcessEvents world_roots) world_roots) !! 1%N = Some o'
        ∧ gcRootCount o'
          = (gcRootCount (new_Collectable [])
             + root_balance 1 (_eventQueue world_roots))%Z.
Proof.
  apply (ProcessEvents_root_balance world_roots).
  - vm_compute. reflexivity.
  - vm_compute. reflexivity.
Defined.
